(** * Blockchain: a shallow embedding of [blockchain.py]

    The ledger engine of the repository is the Python class [Blockchain]:
    a chain of blocks, a pool of pending transactions, a set of peer
    addresses, a SHA-256 hash chain with a leading-zero proof of work, and
    a longest-chain consensus rule.  This file embeds the class method by
    method and proves (or refutes) the properties its specification states.

    Conventions of the embedding.
    - Python [int] is [Z]; [len] is [Z.of_nat (length _)].
    - Python [str] is [string], each character read as a code point below
      256; [bytes] is [list Z] with every element in [0, 256).
    - A raised exception is the [Raise] outcome of a call; a call maps a
      state to an outcome and the state it leaves behind.
    - The two mutable lists that may be shared, the pending pool and the
      [transactions] list of a block, live in an object store and are
      named by their location. *)

From Stdlib Require Import ZArith List Ascii String Lia Bool.
From Stdlib Require DecimalString DecimalPos DecimalZ.
From stdpp Require Import gmap strings list fin_maps.

Local Open Scope string_scope.
Local Open Scope Z_scope.

(** ** Python values the program uses *)

Module Py.

(** Exceptions the program can raise. *)
Inductive exn : Type :=
| IndexError
| ValueError (msg : string).

(** Outcome of evaluating a Python expression or call. *)
Inductive result (A : Type) : Type :=
| Ok (a : A)
| Raise (e : exn).
Arguments Ok {A} a.
Arguments Raise {A} e.

(** [str(n)] for an [int]. *)
Definition str_int (n : Z) : string :=
  DecimalString.NilZero.string_of_int (Z.to_int n).

(** [len(s)] for a [str]. *)
Definition len (s : string) : Z := Z.of_nat (String.length s).

(** [s[:n]]: a negative bound counts from the end, and every bound is
    clipped to the string. *)
Definition slice_to (s : string) (n : Z) : string :=
  if 0 <=? n then String.substring 0 (Z.to_nat n) s
  else String.substring 0 (Z.to_nat (len s + n)) s.

(** [s * n]: no copy at all for [n <= 0]. *)
Fixpoint repeat_str (s : string) (n : nat) : string :=
  match n with
  | O => EmptyString
  | S n' => String.append s (repeat_str s n')
  end.

Definition mul_str (s : string) (n : Z) : string := repeat_str s (Z.to_nat n).

(** Truth value of [None], of a [str], of a [list]. *)
Definition truthy_str (s : string) : bool :=
  match s with EmptyString => false | String _ _ => true end.

Definition truthy_opt_str (o : option string) : bool :=
  match o with None => false | Some s => truthy_str s end.

Definition truthy_opt_list {A} (o : option (list A)) : bool :=
  match o with None | Some [] => false | Some (_ :: _) => true end.

(** Code points of a [str], and [str.encode()] (UTF-8) on them. *)
Definition code (c : ascii) : Z := Z.of_N (N_of_ascii c).

Definition utf8_char (c : ascii) : list Z :=
  let n := code c in
  if n <? 128 then [n]
  else [Z.lor 192 (Z.shiftr n 6); Z.lor 128 (Z.land n 63)].

Fixpoint encode (s : string) : list Z :=
  match s with
  | EmptyString => []
  | String c s' => utf8_char c ++ encode s'
  end.

(** A [float] is observed by the program only through its [repr] (which
    [json.dumps] prints), so a float value is carried as that text. *)
Record float : Type := Float { float_repr : string }.

End Py.

Export Py.

(** ** hashlib.sha256 (FIPS 180-4) on byte lists *)

Module SHA256.

Definition mask32 : Z := 0xffffffff.
Definition w32 (x : Z) : Z := Z.land x mask32.
Definition add32 (x y : Z) : Z := w32 (x + y).
Definition rotr (n x : Z) : Z := Z.lor (Z.shiftr x n) (w32 (Z.shiftl x (32 - n))).

Definition Ch (x y z : Z) : Z := Z.lxor (Z.land x y) (Z.land (Z.lxor x mask32) z).
Definition Maj (x y z : Z) : Z :=
  Z.lxor (Z.lxor (Z.land x y) (Z.land x z)) (Z.land y z).
Definition bsig0 (x : Z) : Z := Z.lxor (Z.lxor (rotr 2 x) (rotr 13 x)) (rotr 22 x).
Definition bsig1 (x : Z) : Z := Z.lxor (Z.lxor (rotr 6 x) (rotr 11 x)) (rotr 25 x).
Definition ssig0 (x : Z) : Z := Z.lxor (Z.lxor (rotr 7 x) (rotr 18 x)) (Z.shiftr x 3).
Definition ssig1 (x : Z) : Z := Z.lxor (Z.lxor (rotr 17 x) (rotr 19 x)) (Z.shiftr x 10).

(** The constants are fractional parts of roots of the first primes:
    the first 32 bits after the point of the cube root for the 64 round
    constants, of the square root for the 8 words of the initial hash. *)
Definition first_primes : list Z :=
  [2; 3; 5; 7; 11; 13; 17; 19; 23; 29; 31; 37; 41; 43; 47; 53; 59; 61; 67;
   71; 73; 79; 83; 89; 97; 101; 103; 107; 109; 113; 127; 131; 137; 139;
   149; 151; 157; 163; 167; 173; 179; 181; 191; 193; 197; 199; 211; 223;
   227; 229; 233; 239; 241; 251; 257; 263; 269; 271; 277; 281; 283; 293;
   307; 311].

(** The largest [r] below [2 ^ bits] with [r * r * r <= n], bit by bit. *)
Fixpoint cube_root (bits : nat) (n r : Z) : Z :=
  match bits with
  | O => r
  | S k =>
      let r' := r + Z.shiftl 1 (Z.of_nat k) in
      if r' * r' * r' <=? n then cube_root k n r' else cube_root k n r
  end.

Definition frac_cube_root (p : Z) : Z := w32 (cube_root 35 (Z.shiftl p 96) 0).
Definition frac_square_root (p : Z) : Z := w32 (Z.sqrt (Z.shiftl p 64)).

Definition round_constants : list Z :=
  Eval vm_compute in map frac_cube_root first_primes.

Record regs : Type :=
  Regs { ra : Z; rb : Z; rc : Z; rd : Z; re : Z; rf : Z; rg : Z; rh : Z }.

Definition initial_hash : regs :=
  Eval vm_compute in
    match map frac_square_root (firstn 8 first_primes) with
    | [a; b; c; d; e; f; g; h] => Regs a b c d e f g h
    | _ => Regs 0 0 0 0 0 0 0 0
    end.

(** Big-endian bytes of a number, most significant first. *)
Fixpoint be_bytes (count : nat) (x : Z) : list Z :=
  match count with
  | O => []
  | S k => Z.land (Z.shiftr x (8 * Z.of_nat k)) 255 :: be_bytes k x
  end.

(** Padding: a one bit, zero bits up to 56 modulo 64 bytes, then the bit
    length of the message on 64 bits. *)
Definition pad (msg : list Z) : list Z :=
  let n := Z.of_nat (length msg) in
  let zeros := Z.to_nat ((55 - n) mod 64) in
  msg ++ [128] ++ repeat 0 zeros ++ be_bytes 8 (8 * n).

Fixpoint words_of_bytes (bs : list Z) : list Z :=
  match bs with
  | a :: b :: c :: d :: rest =>
      Z.lor (Z.shiftl a 24) (Z.lor (Z.shiftl b 16) (Z.lor (Z.shiftl c 8) d))
      :: words_of_bytes rest
  | _ => []
  end.

(** The message schedule, kept newest word first: the head is [W(t-1)]. *)
Fixpoint extend (count : nat) (ws : list Z) : list Z :=
  match count with
  | O => ws
  | S k =>
      let w := add32 (add32 (ssig1 (nth 1 ws 0)) (nth 6 ws 0))
                     (add32 (ssig0 (nth 14 ws 0)) (nth 15 ws 0)) in
      extend k (w :: ws)
  end.

Definition schedule (block : list Z) : list Z := rev (extend 48 (rev block)).

Definition round (r : regs) (kw : Z * Z) : regs :=
  let t1 := add32 (add32 (add32 (rh r) (bsig1 (re r)))
                         (add32 (Ch (re r) (rf r) (rg r)) (fst kw))) (snd kw) in
  let t2 := add32 (bsig0 (ra r)) (Maj (ra r) (rb r) (rc r)) in
  Regs (add32 t1 t2) (ra r) (rb r) (rc r) (add32 (rd r) t1) (re r) (rf r) (rg r).

Definition compress (h : regs) (block : list Z) : regs :=
  let r := fold_left round (combine round_constants (schedule block)) h in
  Regs (add32 (ra h) (ra r)) (add32 (rb h) (rb r)) (add32 (rc h) (rc r))
       (add32 (rd h) (rd r)) (add32 (re h) (re r)) (add32 (rf h) (rf r))
       (add32 (rg h) (rg r)) (add32 (rh h) (rh r)).

(** One 512-bit block (16 words) at a time. *)
Fixpoint blocks (fuel : nat) (h : regs) (ws : list Z) : regs :=
  match fuel, ws with
  | S k, _ :: _ => blocks k (compress h (firstn 16 ws)) (skipn 16 ws)
  | _, _ => h
  end.

Definition digest_words (msg : list Z) : list Z :=
  let ws := words_of_bytes (pad msg) in
  let r := blocks (length ws) initial_hash ws in
  [ra r; rb r; rc r; rd r; re r; rf r; rg r; rh r].

Definition hex_digit (n : Z) : ascii :=
  if n <? 10 then ascii_of_N (Z.to_N (48 + n)) else ascii_of_N (Z.to_N (87 + n)).

Fixpoint hex (digits : nat) (x : Z) : string :=
  match digits with
  | O => EmptyString
  | S k => String (hex_digit (Z.land (Z.shiftr x (4 * Z.of_nat k)) 15)) (hex k x)
  end.

(** [sha256(msg).hexdigest()]: 64 lower-case hexadecimal digits. *)
Definition hexdigest (msg : list Z) : string :=
  String.concat "" (map (hex 8) (digest_words msg)).

End SHA256.

(** ** json.dumps(block, sort_keys=True) *)

Module Json.

Definition hex4 (n : Z) : string := SHA256.hex 4 n.

(** One character of a JSON string literal, [ensure_ascii] being on:
    the short escapes, the printable ASCII characters as they are, and
    a [\uXXXX] escape for every other code point. *)
Definition escape_char (c : ascii) : string :=
  let n := code c in
  if n =? 34 then "\" ++ String c ""
  else if n =? 92 then "\\"
  else if n =? 8 then "\b"
  else if n =? 12 then "\f"
  else if n =? 10 then "\n"
  else if n =? 13 then "\r"
  else if n =? 9 then "\t"
  else if (32 <=? n) && (n <=? 126) then String c ""
  else "\u" ++ hex4 n.

Fixpoint escape (s : string) : string :=
  match s with
  | EmptyString => EmptyString
  | String c s' => escape_char c ++ escape s'
  end.

Definition quote : string := String (ascii_of_N 34) "".

Definition dumps_str (s : string) : string := quote ++ escape s ++ quote.

Definition dumps_int (n : Z) : string := str_int n.

Definition dumps_float (x : float) : string := float_repr x.

(** A key and its already printed value. *)
Definition member (key value : string) : string :=
  dumps_str key ++ ": " ++ value.

Definition dumps_object (members : list string) : string :=
  "{" ++ String.concat ", " members ++ "}".

Definition dumps_array (items : list string) : string :=
  "[" ++ String.concat ", " items ++ "]".

End Json.

(** ** The data model *)

(** A transaction: the dict built by [new_transaction].  The ids are
    strings and the amount an integer, as the [/mine] route passes
    them. *)
Record transaction : Type := Transaction {
  sender : string;
  recipient : string;
  amount : Z
}.

(** A block: the dict built by [add_block].  [T] is what the key
    ['transactions'] holds: [list transaction] for a block that is plain
    data (a block of a fetched chain, a block being hashed), a store
    location for a block of the running node. *)
Record Block (T : Type) : Type := MkBlock {
  index : Z;
  timestamp : float;
  transactions : T;
  proof : Z;
  previous_hash : string
}.
Arguments MkBlock {T} _ _ _ _ _.
Arguments index {T} _.
Arguments timestamp {T} _.
Arguments transactions {T} _.
Arguments proof {T} _.
Arguments previous_hash {T} _.

Abbreviation block := (Block (list transaction)).

(** Keys come out sorted: amount, recipient, sender. *)
Definition dumps_transaction (tx : transaction) : string :=
  Json.dumps_object
    [Json.member "amount" (Json.dumps_int (amount tx));
     Json.member "recipient" (Json.dumps_str (recipient tx));
     Json.member "sender" (Json.dumps_str (sender tx))].

(** Keys come out sorted: index, previous_hash, proof, timestamp,
    transactions. *)
Definition dumps_block (b : block) : string :=
  Json.dumps_object
    [Json.member "index" (Json.dumps_int (index b));
     Json.member "previous_hash" (Json.dumps_str (previous_hash b));
     Json.member "proof" (Json.dumps_int (proof b));
     Json.member "timestamp" (Json.dumps_float (timestamp b));
     Json.member "transactions"
       (Json.dumps_array (map dumps_transaction (transactions b)))].

(** ** Hashing and proof of work: the static methods *)

(** [Blockchain.hash]. *)
Definition hash (b : block) : string :=
  let block_string := encode (dumps_block b) in
  SHA256.hexdigest block_string.

Definition default_difficulty : Z := 4.

(** The digest [validate] computes: [guess_hash] in the source. *)
Definition guess_hash (last_proof proof : Z) (last_hash : string) : string :=
  let guess := encode (str_int last_proof ++ str_int proof ++ last_hash) in
  SHA256.hexdigest guess.

(** [Blockchain.validate], the difficulty given. *)
Definition validate_at (last_proof proof : Z) (last_hash : string)
    (difficulty : Z) : bool :=
  let guess_hash := guess_hash last_proof proof last_hash in
  String.eqb (slice_to guess_hash difficulty) (mul_str "0" difficulty).

(** [Blockchain.validate] called with three arguments, as everywhere in
    the class: [difficulty] takes its default. *)
Definition validate (last_proof proof : Z) (last_hash : string) : bool :=
  validate_at last_proof proof last_hash default_difficulty.

(** The body of the [while] loop of [valid_chain]: [rest] is
    [chain[current_index:]]. *)
Fixpoint valid_chain_loop (last_block : block) (rest : list block) : bool :=
  match rest with
  | [] => true
  | block :: rest' =>
      let last_block_hash := hash last_block in
      if negb (String.eqb (previous_hash block) last_block_hash) then false
      else if negb (validate (proof last_block) (proof block) last_block_hash)
      then false
      else valid_chain_loop block rest'
  end.

(** [Blockchain.valid_chain]: [chain[0]] raises on the empty list. *)
Definition valid_chain (chain : list block) : result bool :=
  match chain with
  | [] => Raise IndexError
  | last_block :: rest => Ok (valid_chain_loop last_block rest)
  end.

(** The [while] loop of [proof_of_work], run for at most [fuel] tests of
    the condition; [None] when the fuel does not suffice. *)
Fixpoint proof_of_work_loop (fuel : nat) (last_proof : Z) (last_hash : string)
    (proof : Z) : option Z :=
  match fuel with
  | O => None
  | S fuel' =>
      if negb (validate last_proof proof last_hash)
      then proof_of_work_loop fuel' last_proof last_hash (proof + 1)
      else Some proof
  end.

(** [Blockchain.proof_of_work]. *)
Definition proof_of_work (fuel : nat) (last_block : block) : option Z :=
  let last_proof := proof last_block in
  let last_hash := hash last_block in
  proof_of_work_loop fuel last_proof last_hash 0.

(** ** urllib.parse.urlparse

    The standard library function [register_node] calls, after CPython
    3.11 and for [str] input.  Left out: the validation of a bracketed
    host as an IP literal, which needs the [ipaddress] module, and the
    NFKC check of a non-ASCII [netloc], which no code point below 256
    fails. *)

Module Url.

Record ParseResult : Type := MkParseResult {
  scheme : string;
  netloc : string;
  path : string;
  params : string;
  query : string;
  fragment : string
}.

Definition is_char (n : Z) (c : ascii) : bool := code c =? n.

Definition is_alpha (c : ascii) : bool :=
  let n := code c in
  ((65 <=? n) && (n <=? 90)) || ((97 <=? n) && (n <=? 122)).

Definition is_digit (c : ascii) : bool :=
  let n := code c in (48 <=? n) && (n <=? 57).

(** Membership in [scheme_chars]: letters, digits and [+-.]. *)
Definition is_scheme_char (c : ascii) : bool :=
  is_alpha c || is_digit c || is_char 43 c || is_char 45 c || is_char 46 c.

Definition lower_char (c : ascii) : ascii :=
  let n := code c in
  if (65 <=? n) && (n <=? 90) then ascii_of_N (Z.to_N (n + 32)) else c.

Fixpoint lower (s : string) : string :=
  match s with
  | EmptyString => EmptyString
  | String c s' => String (lower_char c) (lower s')
  end.

Fixpoint all_chars (p : ascii -> bool) (s : string) : bool :=
  match s with
  | EmptyString => true
  | String c s' => p c && all_chars p s'
  end.

Fixpoint any_char (p : ascii -> bool) (s : string) : bool :=
  match s with
  | EmptyString => false
  | String c s' => p c || any_char p s'
  end.

Fixpoint filter_chars (p : ascii -> bool) (s : string) : string :=
  match s with
  | EmptyString => EmptyString
  | String c s' => if p c then String c (filter_chars p s') else filter_chars p s'
  end.

(** [url.lstrip(_WHATWG_C0_CONTROL_OR_SPACE)]. *)
Fixpoint lstrip_c0 (s : string) : string :=
  match s with
  | EmptyString => EmptyString
  | String c s' => if code c <=? 32 then lstrip_c0 s' else s
  end.

(** Removal of [_UNSAFE_URL_BYTES_TO_REMOVE]: tab, carriage return and
    line feed. *)
Definition remove_unsafe (s : string) : string :=
  filter_chars (fun c => negb (is_char 9 c || is_char 13 c || is_char 10 c)) s.

(** Cut at the first character satisfying [p]: the text before it, and
    the text from it on (empty when there is none). *)
Fixpoint break (p : ascii -> bool) (s : string) : string * string :=
  match s with
  | EmptyString => (EmptyString, EmptyString)
  | String c s' =>
      if p c then (EmptyString, s)
      else let '(before, rest) := break p s' in (String c before, rest)
  end.

Definition tail (s : string) : string :=
  match s with EmptyString => EmptyString | String _ s' => s' end.

(** [url.split(sep, 1)] when [sep] occurs in [url]; [(url, default)]
    when it does not. *)
Definition split_once (sep : Z) (url default : string) : string * string :=
  let '(before, rest) := break (is_char sep) url in
  match rest with
  | EmptyString => (url, default)
  | String _ after => (before, after)
  end.

(** Cut after the last ['/']: [(url[:k+1], url[k+1:])] for
    [k = url.rfind('/')], the first part empty when there is no ['/']. *)
Fixpoint break_last_slash (s : string) : string * string :=
  match s with
  | EmptyString => (EmptyString, EmptyString)
  | String c s' =>
      let '(dir, base) := break_last_slash s' in
      if truthy_str dir then (String c dir, base)
      else if is_char 47 c then (String c EmptyString, s')
      else (EmptyString, s)
  end.

(** [_splitparams]: the parameters are those of the last path segment. *)
Definition splitparams (url : string) : string * string :=
  let '(dir, base) := break_last_slash url in
  let '(before, rest) := break (is_char 59) base in
  match rest with
  | EmptyString => (url, EmptyString)
  | String _ after => (dir ++ before, after)
  end.

Definition uses_params : list string :=
  [""; "ftp"; "hdl"; "prospero"; "http"; "imap"; "https"; "shttp"; "rtsp";
   "rtspu"; "sip"; "sips"; "mms"; "sftp"; "tel"].

(** The scheme, when the text before the first [:] is a letter followed
    by scheme characters. *)
Definition split_scheme (url : string) : string * string :=
  let '(before, rest) := break (is_char 58) url in
  match before, rest with
  | String c0 _, String _ after =>
      if is_alpha c0 && all_chars is_scheme_char before
      then (lower before, after)
      else (EmptyString, url)
  | _, _ => (EmptyString, url)
  end.

(** [_splitnetloc(url, 2)] behind a leading [//], and the bracket check. *)
Definition split_netloc (url : string) : result (string * string) :=
  match url with
  | String c1 (String c2 rest) =>
      if is_char 47 c1 && is_char 47 c2 then
        let '(loc, url') :=
          break (fun c => is_char 47 c || is_char 63 c || is_char 35 c) rest in
        let has_open := any_char (is_char 91) loc in
        let has_close := any_char (is_char 93) loc in
        if (has_open && negb has_close) || (has_close && negb has_open)
        then Raise (ValueError "Invalid IPv6 URL")
        else Ok (loc, url')
      else Ok (EmptyString, url)
  | _ => Ok (EmptyString, url)
  end.

Definition urlparse (url : string) : result ParseResult :=
  let url := remove_unsafe (lstrip_c0 url) in
  let '(scheme, url) := split_scheme url in
  match split_netloc url with
  | Raise e => Raise e
  | Ok (netloc, url) =>
      let '(url, fragment) := split_once 35 url EmptyString in
      let '(url, query) := split_once 63 url EmptyString in
      let '(url, params) :=
        if bool_decide (scheme ∈ uses_params) && any_char (is_char 59) url
        then splitparams url else (url, EmptyString) in
      Ok (MkParseResult scheme netloc url params query fragment)
  end.

End Url.

(** ** The node: object store and the [Blockchain] instance *)

Abbreviation loc := nat.

(** [heap] holds the list objects that may be shared, each under its
    location; [next_loc] is the first location never handed out.  The
    other fields are the attributes of [self]: [current_transactions]
    names the pool's list object, and each block of [chain] names its
    own under ['transactions']. *)
Record State : Type := MkState {
  heap : gmap loc (list transaction);
  next_loc : loc;
  current_transactions : loc;
  chain : list (Block loc);
  nodes : gset string
}.

(** The list object at a location, read. *)
Definition list_at (st : State) (l : loc) : list transaction :=
  default [] (heap st !! l).

(** A block of the node as plain data: what [json.dumps] sees. *)
Definition load (st : State) (b : Block loc) : block :=
  MkBlock (index b) (timestamp b) (list_at st (transactions b)) (proof b)
          (previous_hash b).

(** The pending pool and the chain, as plain data. *)
Definition pool (st : State) : list transaction :=
  list_at st (current_transactions st).

Definition chain_data (st : State) : list block := map (load st) (chain st).

(** [Blockchain.last_block]: [self.chain[-1]]. *)
Definition last_block (st : State) : result (Block loc) :=
  match last (chain st) with
  | Some b => Ok b
  | None => Raise IndexError
  end.

(** [Blockchain.add_block].  [now] is what [time()] returns.  The dict
    literal is evaluated before anything is assigned, so a raise leaves
    the state as it was.  The block takes the pool's list object itself
    and the pool is rebound to a new empty list. *)
Definition add_block (proof : Z) (previous_hash : option string) (now : float)
    (st : State) : result (Block loc) * State :=
  let previous_hash_or_digest :=
    if truthy_opt_str previous_hash then Ok (default "" previous_hash)
    else match last (chain st) with
         | Some b => Ok (hash (load st b))
         | None => Raise IndexError
         end in
  match previous_hash_or_digest with
  | Raise e => (Raise e, st)
  | Ok h =>
      let block :=
        MkBlock (Z.of_nat (length (chain st)) + 1) now
                (current_transactions st) proof h in
      let l := next_loc st in
      (Ok block,
       MkState (<[l := []]> (heap st)) (S l) l (chain st ++ [block]) (nodes st))
  end.

(** [Blockchain.new_transaction]: the append happens in place, before
    [last_block] is read. *)
Definition new_transaction (sender recipient : string) (amount : Z)
    (st : State) : result Z * State :=
  let tx := Transaction sender recipient amount in
  let st' :=
    MkState (<[current_transactions st := (pool st ++ [tx])%list]> (heap st))
            (next_loc st) (current_transactions st) (chain st) (nodes st) in
  match last_block st' with
  | Ok b => (Ok (index b + 1), st')
  | Raise e => (Raise e, st')
  end.

(** [Blockchain.__init__]: the pool, the empty chain, the genesis block,
    the empty peer set. *)
Definition init (now : float) : result unit * State :=
  let st0 := MkState {[ 0%nat := [] ]} 1%nat 0%nat [] ∅ in
  match add_block 42 (Some "secret") now st0 with
  | (Ok _, st1) =>
      (Ok tt, MkState (heap st1) (next_loc st1) (current_transactions st1)
                      (chain st1) ∅)
  | (Raise e, st1) => (Raise e, st1)
  end.

(** [Blockchain.register_node]. *)
Definition register_node (address : string) (st : State) : result unit * State :=
  let add (node : string) :=
    MkState (heap st) (next_loc st) (current_transactions st) (chain st)
            ({[ node ]} ∪ nodes st) in
  match Url.urlparse address with
  | Raise e => (Raise e, st)
  | Ok parsed_url =>
      if truthy_str (Url.netloc parsed_url)
      then (Ok tt, add (Url.netloc parsed_url))
      else if truthy_str (Url.path parsed_url)
      then (Ok tt, add (Url.path parsed_url))
      else (Raise (ValueError "URL Invalid!"), st)
  end.

(** What a peer answers to [GET /chain]: the status, and the two keys of
    the JSON body that [resolve_conflicts] reads. *)
Record response : Type := MkResponse {
  status_code : Z;
  json_length : Z;
  json_chain : list block
}.

(** The network: the answer [requests.get] returns for a URL.  Every
    URL is answered here; a peer that cannot be reached, for which
    [requests.get] raises, is outside this model. *)
Definition network : Type := string -> response.

(** [f'http://{node}/chain']. *)
Definition chain_url (node : string) : string := "http://" ++ node ++ "/chain".

(** The [for] loop of [resolve_conflicts] over the peers in the order the
    set yields them, threading [new_chain] and [max_length].  [and] is
    lazy: [valid_chain] runs only on a longer chain. *)
Fixpoint resolve_loop (requests_get : network) (neighbors : list string)
    (new_chain : option (list block)) (max_length : Z)
    : result (option (list block)) :=
  match neighbors with
  | [] => Ok new_chain
  | node :: neighbors' =>
      let url := chain_url node in
      let response := requests_get url in
      if status_code response =? 200 then
        let length := json_length response in
        let chain := json_chain response in
        if length >? max_length then
          match valid_chain chain with
          | Raise e => Raise e
          | Ok true => resolve_loop requests_get neighbors' (Some chain) length
          | Ok false => resolve_loop requests_get neighbors' new_chain max_length
          end
        else resolve_loop requests_get neighbors' new_chain max_length
      else resolve_loop requests_get neighbors' new_chain max_length
  end.

(** A fetched chain entering the node: every block's transaction list is
    an object of its own. *)
Fixpoint store_chain (c : list block) (h : gmap loc (list transaction))
    (l : loc) : list (Block loc) * gmap loc (list transaction) * loc :=
  match c with
  | [] => ([], h, l)
  | b :: c' =>
      let '(bs, h', l') := store_chain c' (<[l := transactions b]> h) (S l) in
      (MkBlock (index b) (timestamp b) l (proof b) (previous_hash b) :: bs,
       h', l')
  end.

(** [Blockchain.resolve_conflicts].  [order] is the order in which
    iterating over [self.nodes] yields the peers. *)
Definition resolve_conflicts (requests_get : network) (order : list string)
    (st : State) : result bool * State :=
  let neighbors := order in
  let max_length := Z.of_nat (length (chain st)) in
  match resolve_loop requests_get neighbors None max_length with
  | Raise e => (Raise e, st)
  | Ok new_chain =>
      if truthy_opt_list new_chain then
        let '(bs, h, l) :=
          store_chain (default [] new_chain) (heap st) (next_loc st) in
        (Ok true, MkState h l (current_transactions st) bs (nodes st))
      else (Ok false, st)
  end.

(** ** Runs of the node *)

(** The calls the routes make on the instance, with what each reads from
    outside: the clock, the network, the iteration order of the set. *)
Inductive call : Type :=
| NewTransaction (sender recipient : string) (amount : Z)
| AddBlock (proof : Z) (previous_hash : option string) (now : float)
| RegisterNode (address : string)
| ResolveConflicts (requests_get : network) (order : list string).

(** The state a call leaves, whatever it returned or raised. *)
Definition exec (c : call) (st : State) : State :=
  match c with
  | NewTransaction s r a => snd (new_transaction s r a st)
  | AddBlock p h now => snd (add_block p h now st)
  | RegisterNode a => snd (register_node a st)
  | ResolveConflicts net order => snd (resolve_conflicts net order st)
  end.

(** A call the node can make: the peers are iterated in some order of
    the peer set. *)
Definition admissible (c : call) (st : State) : Prop :=
  match c with
  | ResolveConflicts _ order => order ≡ₚ elements (nodes st)
  | _ => True
  end.

(** States of a node: the constructor, then any calls. *)
Inductive reachable : State -> Prop :=
| reachable_init now : reachable (snd (init now))
| reachable_exec c st : reachable st -> admissible c st -> reachable (exec c st).

(** Transfer submission or mining only. *)
Definition is_ledger_call (c : call) : bool :=
  match c with
  | NewTransaction _ _ _ | AddBlock _ _ _ => true
  | _ => false
  end.

Definition run (cs : list call) (st : State) : State :=
  fold_left (fun s c => exec c s) cs st.

(** ** Vocabulary of the statements *)

(** The two tests [valid_chain] makes on a block and its predecessor. *)
Definition link_ok (prev cur : block) : bool :=
  String.eqb (previous_hash cur) (hash prev) &&
  validate (proof prev) (proof cur) (hash prev).

(** The store discipline of a running node: the pool and the blocks name
    lists that were handed out, and no block shares its list with the
    pool. *)
Definition well_formed (st : State) : Prop :=
  (current_transactions st < next_loc st)%nat /\
  forall b, b ∈ chain st ->
    (transactions b < next_loc st)%nat /\
    transactions b <> current_transactions st.

(** A peer whose answer [resolve_conflicts] accepts over a chain of
    length [m]: status 200, a reported length above [m], a chain that
    [valid_chain] accepts. *)
Definition eligible (requests_get : network) (m : Z) (node : string) : Prop :=
  let r := requests_get (chain_url node) in
  status_code r = 200 /\ json_length r > m /\
  valid_chain (json_chain r) = Ok true.

(** ** Sample data

    A chain mined by the program's own rules: the genesis block of a node
    started at time [0.0], and two blocks whose proofs are the ones
    [proof_of_work] finds. *)

Definition genesis0 : block := MkBlock 1 (Float "0.0") [] 42 "secret".

Definition mined1 : block :=
  MkBlock 2 (Float "1.0") [Transaction "0" "node" 20] 29008 (hash genesis0).

Definition mined2 : block :=
  MkBlock 3 (Float "2.0") [] 15225 (hash mined1).

Definition node0 : State := snd (init (Float "0.0")).

(** A node that knows two peers; the first serves the mined chain of two
    blocks, the other reports three blocks and sends none. *)
Definition peer_a : string := "10.0.0.5:5000".
Definition peer_b : string := "10.0.0.6:5000".

Definition node_with_peers : State :=
  exec (RegisterNode "http://10.0.0.6:5000")
       (exec (RegisterNode "http://10.0.0.5:5000") node0).

Definition net_empty_chain : network :=
  fun url =>
    if String.eqb url (chain_url peer_a)
    then MkResponse 200 2 [genesis0; mined1]
    else MkResponse 200 3 [].

(** A node with two blocks and one peer, which reports three blocks and
    sends one. *)
Definition node_two_blocks : State :=
  exec (AddBlock 29008 None (Float "1.0"))
       (exec (RegisterNode "http://10.0.0.5:5000") node0).

Definition net_short_chain : network :=
  fun _ => MkResponse 200 3 [genesis0].

(** ** The routes

    The Flask handlers that call the instance.  A handler returns the
    body it sends and the status beside it.  [register_nodes] is not
    here: its first statement reads [requests.data], an attribute the
    [requests] module does not have. *)

Module Routes.

(** [full_chain]: the body as a peer reads it back with
    [response.json()], under the status. *)
Definition full_chain (st : State) : response :=
  MkResponse 200 (Z.of_nat (length (chain st))) (chain_data st).

(** The body of the answer of [mine]. *)
Record mined : Type := MkMined {
  mined_message : string;
  mined_index : Z;
  mined_proof : Z;
  mined_transactions : list transaction;
  mined_previous_hash : string
}.

Definition mined_of (st : State) (block : Block loc) : mined :=
  MkMined "New block was mined!" (index block) (proof block)
          (list_at st (transactions block)) (previous_hash block).

(** [mine].  The search for the proof is run for at most [fuel] tests;
    [None] when that does not suffice.  [last_block] is the dict read at
    the start: it is hashed once for the search and once more, after the
    reward has been submitted, for [previous_hash]. *)
Definition mine (fuel : nat) (node_identifier : string) (now : float)
    (st : State) : option (result (mined * Z) * State) :=
  match last_block st with
  | Raise e => Some (Raise e, st)
  | Ok last_block =>
      match proof_of_work fuel (load st last_block) with
      | None => None
      | Some proof =>
          match new_transaction "0" node_identifier 20 st with
          | (Raise e, st1) => Some (Raise e, st1)
          | (Ok _, st1) =>
              let previous_hash := hash (load st1 last_block) in
              match add_block proof (Some previous_hash) now st1 with
              | (Raise e, st2) => Some (Raise e, st2)
              | (Ok block, st2) =>
                  Some (Ok (mined_of st2 block, 200), st2)
              end
          end
      end
  end.

(** The JSON object posted to [/transactions/new], as far as the handler
    looks at it: each of the three keys is there or not. *)
Record posted : Type := MkPosted {
  posted_sender : option string;
  posted_recipient : option string;
  posted_amount : option Z
}.

(** [new_transaction], the handler: the message of the body and the
    status. *)
Definition new_transaction (values : posted) (st : State)
    : result (string * Z) * State :=
  match posted_sender values, posted_recipient values, posted_amount values with
  | Some sender, Some recipient, Some amount =>
      match new_transaction sender recipient amount st with
      | (Ok index, st') => (Ok ("Block #" ++ str_int index, 201), st')
      | (Raise e, st') => (Raise e, st')
      end
  | _, _, _ => (Ok ("Missing values", 400), st)
  end.

(** [consensus]: the message, the chain sent along when there is one,
    and the status. *)
Definition consensus (requests_get : network) (order : list string)
    (st : State) : result (string * option (list block) * Z) * State :=
  match resolve_conflicts requests_get order st with
  | (Raise e, st') => (Raise e, st')
  | (Ok replaced, st') =>
      if replaced
      then (Ok ("Blockchain was replaced!", Some (chain_data st'), 200), st')
      else (Ok ("No change!", None, 200), st')
  end.

End Routes.

(** ** Runs in which only the program appends blocks

    [add_block] has two callers, the constructor and [mine].  These are
    the states of a node whose blocks all come from them or from a peer:
    the constructor, then transfer submissions, peer registrations,
    consensus resolutions and calls of [mine]. *)

Definition is_add_block (c : call) : bool :=
  match c with AddBlock _ _ _ => true | _ => false end.

Definition is_resolve (c : call) : bool :=
  match c with ResolveConflicts _ _ => true | _ => false end.

Inductive served : State -> Prop :=
| served_init now : served (snd (init now))
| served_exec c st :
    served st -> admissible c st -> is_add_block c = false ->
    served (exec c st)
| served_mine fuel node_identifier now st out st' :
    served st -> Routes.mine fuel node_identifier now st = Some (out, st') ->
    served st'.

(** The transfer submission that puts [tx] into the pool. *)
Definition submit (tx : transaction) : call :=
  NewTransaction (sender tx) (recipient tx) (amount tx).

(** A network whose peers report the length of the chain they send, as
    [full_chain] does. *)
Definition reports_true_length (requests_get : network) (order : list string)
    : Prop :=
  forall node, node ∈ order ->
    json_length (requests_get (chain_url node)) =
    Z.of_nat (length (json_chain (requests_get (chain_url node)))).

(** ** Reading a JSON string back

    The inverse of [Json.escape_char], to show that the printed form of
    a block loses nothing. *)

Definition hex_value (c : ascii) : option Z :=
  let n := code c in
  if (48 <=? n) && (n <=? 57) then Some (n - 48)
  else if (97 <=? n) && (n <=? 102) then Some (n - 87)
  else None.






(** ** Addresses [urlparse] leaves whole *)


(** A character that may stand in an address without a scheme: none of
    [? # ;], tab, carriage return, line feed. *)
Definition bare_char (c : ascii) : bool :=
  negb (Url.is_char 63 c || Url.is_char 35 c || Url.is_char 59 c ||
        Url.is_char 9 c || Url.is_char 13 c || Url.is_char 10 c).

(** A lower-case hexadecimal digit. *)
Definition is_hex_char (c : ascii) : bool :=
  match hex_value c with Some _ => true | None => false end.


(** * Properties *)

Lemma hex_length digits x : String.length (SHA256.hex digits x) = digits.
Proof.
  induction digits as [|k IH]; [reflexivity|].
  cbn [SHA256.hex String.length]. now rewrite IH.
Qed.

Lemma append_length (s1 s2 : string) :
  String.length (s1 ++ s2) = (String.length s1 + String.length s2)%nat.
Proof.
  induction s1 as [|c s1 IH]; [reflexivity|].
  change (S (String.length (s1 ++ s2)) =
          S (String.length s1 + String.length s2)). now rewrite IH.
Qed.

Lemma hexdigest_length msg : String.length (SHA256.hexdigest msg) = 64%nat.
Proof.
  unfold SHA256.hexdigest, SHA256.digest_words.
  cbn [map String.concat]. rewrite !append_length, !hex_length.
  reflexivity.
Qed.

(** The digests are computed on closed data only. *)
Arguments SHA256.hexdigest : simpl never.
Arguments guess_hash : simpl never.
Arguments validate_at : simpl never.
Arguments validate : simpl never.
Arguments hash : simpl never.
Arguments Url.urlparse : simpl never.
Opaque SHA256.hexdigest.

(** Splits conjunctions only, so that no equation between digests is
    decided by unfolding. *)
Ltac split_conj := repeat match goal with |- _ /\ _ => split end.

Ltac split_eligible := unfold eligible; cbv zeta; split_conj.

(** ** Strings *)

Lemma substring_zeros (c : ascii) (n : nat) (s : string) :
  String.substring 0 n s = repeat_str (String c EmptyString) n <->
  forall i, (i < n)%nat -> String.get i s = Some c.
Proof.
  revert s; induction n as [|n IH]; intros s.
  - split; [intros _ i Hi; lia | intros _; now destruct s].
  - change (repeat_str (String c EmptyString) (S n))
      with (String c (repeat_str (String c EmptyString) n)).
    destruct s as [|a s]; simpl.
    + split; [discriminate | intros H; specialize (H O); simpl in H].
      assert (Hlt : (0 < S n)%nat) by lia. now specialize (H Hlt).
    + split.
      * intros Heq i Hi. injection Heq as -> Hrest.
        destruct i as [|i]; [reflexivity | simpl].
        apply IH; [exact Hrest | lia].
      * intros H. f_equal.
        -- assert (Hlt : (0 < S n)%nat) by lia.
           specialize (H O Hlt). simpl in H. congruence.
        -- apply IH. intros i Hi. apply (H (S i)). lia.
Qed.

(** ** validate *)

Lemma validate_at_true_iff last_proof proof last_hash difficulty :
  0 <= difficulty ->
  validate_at last_proof proof last_hash difficulty = true <->
  forall i, (i < Z.to_nat difficulty)%nat ->
            String.get i (guess_hash last_proof proof last_hash) = Some "0"%char.
Proof.
  intros Hd. unfold validate_at, slice_to, mul_str.
  destruct (Z.leb_spec 0 difficulty) as [_|Hneg]; [|lia].
  rewrite String.eqb_eq. apply substring_zeros.
Qed.

(** Outside the counts that a digest can meet, Python's slice and
    repetition decide: a difficulty above 64 is never met, a negative one
    above -64 neither, and one of -64 or below always is. *)
Lemma validate_at_out_of_range last_proof proof last_hash difficulty :
  (64 < difficulty \/ -64 < difficulty < 0 ->
   validate_at last_proof proof last_hash difficulty = false) /\
  (difficulty <= -64 ->
   validate_at last_proof proof last_hash difficulty = true).
Proof.
  pose proof (hexdigest_length
                (encode (str_int last_proof ++ str_int proof ++ last_hash)))
    as Hlen.
  unfold validate_at, guess_hash, slice_to, mul_str, len.
  set (digest := SHA256.hexdigest _) in *. clearbody digest.
  assert (Hsub : forall n s, (n <= String.length s)%nat ->
                   String.length (String.substring 0 n s) = n).
  { induction n as [|n IH]; intros [|c s] Hn; cbn in *;
      try reflexivity; try lia. rewrite IH; [reflexivity | lia]. }
  assert (Hfull : forall n s, (String.length s <= n)%nat ->
                    String.substring 0 n s = s).
  { induction n as [|n IH]; intros [|c s] Hn; cbn in *;
      try reflexivity; try lia. rewrite IH; [reflexivity | lia]. }
  assert (Hrep : forall n, String.length (repeat_str "0" n) = n).
  { induction n as [|n IH]; [reflexivity|].
    change (S (String.length (repeat_str "0" n)) = S n). now rewrite IH. }
  split.
  - intros Hd. apply String.eqb_neq. intros Heq.
    apply (f_equal String.length) in Heq. rewrite Hrep in Heq.
    destruct (Z.leb_spec 0 difficulty) as [Hpos|Hneg].
    + rewrite Hfull in Heq by lia. lia.
    + rewrite Hsub in Heq by lia. lia.
  - intros Hd. apply String.eqb_eq.
    destruct (Z.leb_spec 0 difficulty) as [Hpos|Hneg]; [lia|].
    replace (Z.to_nat (Z.of_nat (String.length digest) + difficulty))
      with O by lia.
    replace (Z.to_nat difficulty) with O by lia. now destruct digest.
Qed.

Lemma bounded_all_or_counter (P : nat -> Prop) (n : nat) :
  (forall i, Decision (P i)) ->
  (forall i, (i < n)%nat -> P i) \/ (exists i, (i < n)%nat /\ ~ P i).
Proof.
  intros Hdec. induction n as [|n [Hall|(i & Hi & Hn)]].
  - left. intros i Hi. lia.
  - destruct (Hdec n) as [Hn|Hn].
    + left. intros i Hi. destruct (decide (i = n)) as [->|Hne]; [exact Hn|].
      apply Hall. lia.
    + right. exists n. split; [lia | exact Hn].
  - right. exists i. split; [lia | exact Hn].
Qed.

(** C5.  For a difficulty [d >= 0], [validate] answers true exactly when
    the first [d] characters of the hex digest of the concatenation of the
    three values exist and are all the zero character, and false exactly
    when one of them is not; a digest whose character at position [d] is
    not a zero fails at difficulty [d + 1]; left out, the difficulty is 4. *)
Theorem validate_leading_zeros (last_proof proof : Z) (last_hash : string)
    (difficulty : Z) :
  0 <= difficulty ->
  let digest :=
    SHA256.hexdigest (encode (str_int last_proof ++ str_int proof ++ last_hash)) in
  (validate_at last_proof proof last_hash difficulty = true <->
   forall i, (i < Z.to_nat difficulty)%nat -> String.get i digest = Some "0"%char) /\
  (validate_at last_proof proof last_hash difficulty = false <->
   exists i, (i < Z.to_nat difficulty)%nat /\ String.get i digest <> Some "0"%char) /\
  (String.get (Z.to_nat difficulty) digest <> Some "0"%char ->
   validate_at last_proof proof last_hash (difficulty + 1) = false) /\
  default_difficulty = 4 /\
  validate last_proof proof last_hash = validate_at last_proof proof last_hash 4.
Proof.
  intros Hd digest.
  pose proof (validate_at_true_iff last_proof proof last_hash difficulty Hd) as Ht.
  fold digest in Ht. unfold guess_hash in Ht. fold digest in Ht.
  assert (Hf : validate_at last_proof proof last_hash difficulty = false <->
               exists i, (i < Z.to_nat difficulty)%nat /\
                         String.get i digest <> Some "0"%char).
  { split.
    - intros Hfalse.
      destruct (bounded_all_or_counter
                  (fun i => String.get i digest = Some "0"%char)
                  (Z.to_nat difficulty)) as [Hall|Hex]; [intros i; apply _ | |exact Hex].
      apply Ht in Hall. congruence.
    - intros (i & Hi & Hne).
      destruct (validate_at last_proof proof last_hash difficulty) eqn:E; [|reflexivity].
      exfalso. apply Hne. now apply Ht. }
  repeat split; try (apply Ht); try (apply Hf); try reflexivity.
  intros Hne.
  destruct (validate_at last_proof proof last_hash (difficulty + 1)) eqn:E;
    [|reflexivity].
  exfalso. apply Hne.
  assert (Hd1 : 0 <= difficulty + 1) by lia.
  pose proof (proj1 (validate_at_true_iff last_proof proof last_hash
                       (difficulty + 1) Hd1) E) as Hall.
  apply (Hall (Z.to_nat difficulty)). lia.
Qed.

Lemma validate_leading_zeros_witness :
  validate_at 42 29008 (hash genesis0) 4 = true /\
  validate_at 42 29008 (hash genesis0) 5 = false.
Proof.
  pose proof (validate_leading_zeros 42 29008 (hash genesis0) 4 ltac:(lia)) as H.
  cbv zeta in H. destruct H as (Htrue & _ & Hnext & _).
  split.
  - apply Htrue. intros i Hi.
    do 4 (destruct i as [|i]; [vm_compute; reflexivity|]). simpl in Hi. lia.
  - apply Hnext. vm_compute. discriminate.
Defined.

(** ** proof_of_work *)

Lemma proof_of_work_loop_sound last_proof last_hash fuel start q :
  proof_of_work_loop fuel last_proof last_hash start = Some q ->
  start <= q /\ validate last_proof q last_hash = true /\
  forall r, start <= r < q -> validate last_proof r last_hash = false.
Proof.
  revert start. induction fuel as [|fuel IH]; intros start;
    cbn [proof_of_work_loop].
  - discriminate.
  - destruct (validate last_proof start last_hash) eqn:E; cbn [negb].
    + intros [= <-]. split_conj; [lia | exact E | intros r Hr; lia].
    + intros Hq. apply IH in Hq as (Hle & Hok & Hmin).
      split_conj; [lia | exact Hok |].
      intros r Hr. destruct (Z.eq_dec r start) as [->|Hne]; [exact E|].
      apply Hmin. lia.
Qed.

Lemma proof_of_work_loop_complete last_proof last_hash fuel start q :
  start <= q -> validate last_proof q last_hash = true ->
  (forall r, start <= r < q -> validate last_proof r last_hash = false) ->
  (Z.to_nat (q - start) < fuel)%nat ->
  proof_of_work_loop fuel last_proof last_hash start = Some q.
Proof.
  revert start. induction fuel as [|fuel IH]; intros start Hle Hok Hmin Hfuel.
  - lia.
  - cbn [proof_of_work_loop]. destruct (Z.eq_dec start q) as [->|Hne].
    + now rewrite Hok.
    + rewrite (Hmin start) by lia. cbn [negb].
      apply IH; [lia | exact Hok | intros r Hr; apply Hmin; lia | lia].
Qed.

Lemma proof_of_work_loop_finds last_proof last_hash fuel start p :
  start <= p -> validate last_proof p last_hash = true ->
  (Z.to_nat (p - start) < fuel)%nat ->
  exists q, proof_of_work_loop fuel last_proof last_hash start = Some q.
Proof.
  revert start. induction fuel as [|fuel IH]; intros start Hle Hok Hfuel.
  - lia.
  - cbn [proof_of_work_loop].
    destruct (validate last_proof start last_hash) eqn:E; cbn [negb].
    + eauto.
    + assert (start <> p) by congruence. apply IH; [lia | exact Hok | lia].
Qed.

(** C4.  When some non-negative proof passes [validate] for a block, the
    search started at 0 returns, for every bound on the number of loop
    tests that exceeds it, the smallest non-negative proof that passes;
    whatever number the search returns is that one, so two runs on the
    same block agree. *)
Theorem proof_of_work_least (last_block : block) (p : Z) :
  0 <= p ->
  validate (proof last_block) p (hash last_block) = true ->
  exists q,
    0 <= q <= p /\
    validate (proof last_block) q (hash last_block) = true /\
    (forall r, 0 <= r < q ->
               validate (proof last_block) r (hash last_block) = false) /\
    (forall fuel, (Z.to_nat q < fuel)%nat ->
                  proof_of_work fuel last_block = Some q) /\
    (forall fuel r, proof_of_work fuel last_block = Some r -> r = q).
Proof.
  intros Hp Hok. unfold proof_of_work.
  destruct (proof_of_work_loop_finds (proof last_block) (hash last_block)
              (S (Z.to_nat p)) 0 p Hp Hok ltac:(lia)) as [q Hq].
  pose proof (proof_of_work_loop_sound _ _ _ _ _ Hq) as (Hq0 & Hqok & Hqmin).
  exists q. split_conj; try assumption.
  - destruct (Z_le_gt_dec q p) as [Hle|Hgt]; [exact Hle|].
    rewrite (Hqmin p) in Hok by lia. discriminate.
  - intros fuel Hfuel. apply proof_of_work_loop_complete; try assumption. lia.
  - intros fuel r Hr.
    apply proof_of_work_loop_sound in Hr as (Hr0 & Hrok & Hrmin).
    destruct (Z.lt_total r q) as [Hlt|[Heq|Hgt]]; [|exact Heq|].
    + rewrite (Hqmin r) in Hrok by lia. discriminate.
    + rewrite (Hrmin q) in Hqok by lia. discriminate.
Qed.

Lemma proof_of_work_least_witness :
  exists q,
    0 <= q <= 29008 /\
    validate (proof genesis0) q (hash genesis0) = true /\
    (forall r, 0 <= r < q ->
               validate (proof genesis0) r (hash genesis0) = false) /\
    (forall fuel, (Z.to_nat q < fuel)%nat ->
                  proof_of_work fuel genesis0 = Some q) /\
    (forall fuel r, proof_of_work fuel genesis0 = Some r -> r = q).
Proof.
  apply (proof_of_work_least genesis0 29008); [lia | vm_compute; reflexivity].
Defined.

(** ** valid_chain *)

Lemma link_ok_true prev cur :
  link_ok prev cur = true <->
  previous_hash cur = hash prev /\
  validate (proof prev) (proof cur) (hash prev) = true.
Proof.
  unfold link_ok. rewrite andb_true_iff, String.eqb_eq. reflexivity.
Qed.

Lemma valid_chain_loop_cons last_block cur rest :
  valid_chain_loop last_block (cur :: rest) =
  link_ok last_block cur && valid_chain_loop cur rest.
Proof.
  cbn [valid_chain_loop]. unfold link_ok.
  destruct (String.eqb (previous_hash cur) (hash last_block)); [|reflexivity].
  destruct (validate (proof last_block) (proof cur) (hash last_block));
    reflexivity.
Qed.

Lemma valid_chain_loop_true last_block rest :
  valid_chain_loop last_block rest = true <->
  forall i prev cur,
    (last_block :: rest) !! i = Some prev ->
    (last_block :: rest) !! S i = Some cur ->
    link_ok prev cur = true.
Proof.
  revert last_block. induction rest as [|x rest IH]; intros last_block.
  - split; [|reflexivity]. intros _ [|i] prev cur _ Hcur; discriminate.
  - rewrite valid_chain_loop_cons, andb_true_iff, IH. split.
    + intros [Hhead Hrest] [|i] prev cur Hprev Hcur.
      * injection Hprev as <-. injection Hcur as <-. exact Hhead.
      * apply (Hrest i); assumption.
    + intros H. split.
      * apply (H O); reflexivity.
      * intros i prev cur Hprev Hcur. apply (H (S i)); assumption.
Qed.

Lemma valid_chain_true (c : list block) :
  valid_chain c = Ok true <->
  c <> [] /\
  forall i prev cur,
    c !! i = Some prev -> c !! S i = Some cur -> link_ok prev cur = true.
Proof.
  destruct c as [|b rest]; cbn [valid_chain].
  - split; [discriminate | intros [H _]; congruence].
  - rewrite <- valid_chain_loop_true. split.
    + intros [= ->]. split; [discriminate | reflexivity].
    + intros [_ ->]. reflexivity.
Qed.

Lemma valid_chain_false (c : list block) :
  valid_chain c = Ok false <->
  exists i prev cur,
    c !! i = Some prev /\ c !! S i = Some cur /\ link_ok prev cur = false.
Proof.
  destruct c as [|b rest]; cbn [valid_chain].
  - split; [discriminate | intros (i & prev & cur & H & _); discriminate].
  - split.
    + intros [= H]. revert b H. induction rest as [|x rest IH]; intros b H.
      * discriminate.
      * rewrite valid_chain_loop_cons in H. apply andb_false_iff in H as [H|H].
        -- exists O, b, x. split_conj; [reflexivity | reflexivity | exact H].
        -- destruct (IH x H) as (i & prev & cur & Hp & Hc & Hl).
           exists (S i), prev, cur. split_conj; [exact Hp | exact Hc | exact Hl].
    + intros (i & prev & cur & Hp & Hc & Hl). f_equal.
      destruct (valid_chain_loop b rest) eqn:E; [|reflexivity].
      rewrite valid_chain_loop_true in E. rewrite (E i prev cur Hp Hc) in Hl.
      discriminate.
Qed.

(** Every non-empty chain gets an answer: true when each block carries
    the digest of its predecessor and a proof valid against it, false
    otherwise.  A one-block chain is accepted as it is. *)
Lemma valid_chain_pairwise (c : list block) :
  c <> [] ->
  exists answer,
    valid_chain c = Ok answer /\
    (answer = true <->
     forall i prev cur,
       c !! i = Some prev -> c !! S i = Some cur ->
       previous_hash cur = hash prev /\
       validate (proof prev) (proof cur) (hash prev) = true).
Proof.
  intros Hne. destruct c as [|b rest]; [congruence|].
  exists (valid_chain_loop b rest). split; [reflexivity|].
  rewrite valid_chain_loop_true. split.
  - intros H i prev cur Hp Hc. apply link_ok_true. eauto.
  - intros H i prev cur Hp Hc. apply link_ok_true. eauto.
Qed.

(** C2.  On the empty chain [valid_chain] raises [IndexError]: it reads
    [chain[0]] before the loop, where its docstring and the specification
    have it answer false. *)
Theorem valid_chain_empty_raises : valid_chain [] = Raise IndexError.
Proof. reflexivity. Qed.

(** What [valid_chain] does not look at: the content of the last block
    beyond its link, anything in a lone block, and what stood before the
    first or after the last block it is given.  The chain
    [genesis0; mined1] is accepted, and so is each of: the same chain
    with the transfers of its last block dropped, with the index of its
    last block changed, with its last block left out, with its first
    block left out; and the lone genesis block with another proof. *)
Lemma valid_chain_misses_tampering :
  valid_chain [genesis0; mined1] = Ok true /\
  valid_chain
    [genesis0;
     MkBlock (index mined1) (timestamp mined1) [] (proof mined1)
             (previous_hash mined1)] = Ok true /\
  valid_chain
    [genesis0;
     MkBlock 7 (timestamp mined1) (transactions mined1) (proof mined1)
             (previous_hash mined1)] = Ok true /\
  valid_chain (delete 1%nat [genesis0; mined1]) = Ok true /\
  valid_chain (delete 0%nat [genesis0; mined1]) = Ok true /\
  valid_chain [genesis0] = Ok true /\
  valid_chain
    [MkBlock (index genesis0) (timestamp genesis0) (transactions genesis0) 43
             (previous_hash genesis0)] = Ok true.
Proof.
  split_conj; vm_compute; reflexivity.
Qed.

(** C3, amended.  In a chain that [valid_chain] accepts, each of these
    yields a chain it answers false on: replacing a block that has a
    successor by a block of another digest; replacing a block that has a
    predecessor by a block with another [previous_hash], or with a proof
    that does not validate against the predecessor; leaving out a block
    that stands between two others, when its digest differs from its
    predecessor's. *)
Theorem valid_chain_detects_tampering (c : list block) :
  valid_chain c = Ok true ->
  (forall i b b', c !! i = Some b -> (S i < length c)%nat ->
     hash b' <> hash b ->
     valid_chain (<[i := b']> c) = Ok false) /\
  (forall i b b', c !! S i = Some b ->
     previous_hash b' <> previous_hash b ->
     valid_chain (<[S i := b']> c) = Ok false) /\
  (forall i prev b b', c !! i = Some prev -> c !! S i = Some b ->
     validate (proof prev) (proof b') (hash prev) = false ->
     valid_chain (<[S i := b']> c) = Ok false) /\
  (forall i prev b next,
     c !! i = Some prev -> c !! S i = Some b -> c !! S (S i) = Some next ->
     hash prev <> hash b ->
     valid_chain (delete (S i) c) = Ok false).
Proof.
  intros Hvalid. apply valid_chain_true in Hvalid as [_ Hlinks].
  split_conj.
  - intros i b b' Hb Hlen Hhash.
    destruct (lookup_lt_is_Some_2 c (S i) Hlen) as [next Hnext].
    pose proof (proj1 (link_ok_true _ _) (Hlinks i b next Hb Hnext)) as [Hprev _].
    apply valid_chain_false. exists i, b', next. split_conj.
    + apply list_lookup_insert_eq. lia.
    + rewrite list_lookup_insert_ne by lia. exact Hnext.
    + unfold link_ok. apply andb_false_iff. left.
      apply String.eqb_neq. congruence.
  - intros i b b' Hb Hprev.
    assert (Hi : (i < length c)%nat).
    { apply lookup_lt_Some in Hb. lia. }
    destruct (lookup_lt_is_Some_2 c i Hi) as [prev Hp].
    pose proof (proj1 (link_ok_true _ _) (Hlinks i prev b Hp Hb)) as [Hlink _].
    apply valid_chain_false. exists i, prev, b'. split_conj.
    + rewrite list_lookup_insert_ne by lia. exact Hp.
    + apply list_lookup_insert_eq. now apply lookup_lt_Some in Hb.
    + unfold link_ok. apply andb_false_iff. left.
      apply String.eqb_neq. congruence.
  - intros i prev b b' Hp Hb Hproof.
    apply valid_chain_false. exists i, prev, b'. split_conj.
    + rewrite list_lookup_insert_ne by lia. exact Hp.
    + apply list_lookup_insert_eq. now apply lookup_lt_Some in Hb.
    + unfold link_ok. apply andb_false_iff. right. exact Hproof.
  - intros i prev b next Hp Hb Hn Hhash.
    pose proof (proj1 (link_ok_true _ _) (Hlinks (S i) b next Hb Hn)) as [Hlink _].
    apply valid_chain_false. exists i, prev, next. split_conj.
    + rewrite list_lookup_delete_lt by lia. exact Hp.
    + rewrite list_lookup_delete_ge by lia. exact Hn.
    + unfold link_ok. apply andb_false_iff. left.
      apply String.eqb_neq. congruence.
Qed.

Lemma valid_chain_detects_tampering_witness :
  valid_chain [genesis0; mined1; mined2] = Ok true /\
  valid_chain
    (<[1%nat := MkBlock 2 (Float "1.0") [] 29008 (hash genesis0)]>
       [genesis0; mined1; mined2]) = Ok false /\
  valid_chain
    (<[2%nat := MkBlock 3 (Float "2.0") [] 15225 "secret"]>
       [genesis0; mined1; mined2]) = Ok false /\
  valid_chain
    (<[2%nat := MkBlock 3 (Float "2.0") [] 0 (hash mined1)]>
       [genesis0; mined1; mined2]) = Ok false /\
  valid_chain (delete 1%nat [genesis0; mined1; mined2]) = Ok false.
Proof.
  assert (Hvalid : valid_chain [genesis0; mined1; mined2] = Ok true)
    by (vm_compute; reflexivity).
  destruct (valid_chain_detects_tampering _ Hvalid) as (Hrep & Hprev & Hproof & Hdel).
  split; [exact Hvalid|]. split_conj.
  - apply (Hrep 1%nat mined1); [reflexivity | simpl; lia | vm_compute; discriminate].
  - apply (Hprev 1%nat mined2); [reflexivity | vm_compute; discriminate].
  - apply (Hproof 1%nat mined1 mined2); [reflexivity | reflexivity | vm_compute; reflexivity].
  - apply (Hdel 0%nat genesis0 mined1 mined2);
      [reflexivity | reflexivity | reflexivity | vm_compute; discriminate].
Defined.

(** ** The store discipline *)

Lemma init_state now :
  init now =
  (Ok tt,
   MkState (<[1%nat := []]> {[ 0%nat := [] ]}) 2%nat 1%nat
           [MkBlock 1 now 0%nat 42 "secret"] ∅).
Proof. reflexivity. Qed.

Lemma add_block_ok proof previous_hash now st :
  chain st <> [] ->
  exists h,
    (if truthy_opt_str previous_hash then Some h = previous_hash
     else exists b, last (chain st) = Some b /\ h = hash (load st b)) /\
    add_block proof previous_hash now st =
    (Ok (MkBlock (Z.of_nat (length (chain st)) + 1) now
                 (current_transactions st) proof h),
     MkState (<[next_loc st := []]> (heap st)) (S (next_loc st)) (next_loc st)
             (chain st ++
              [MkBlock (Z.of_nat (length (chain st)) + 1) now
                       (current_transactions st) proof h])
             (nodes st)).
Proof.
  intros Hne. unfold add_block.
  destruct (truthy_opt_str previous_hash) eqn:Htruthy.
  - destruct previous_hash as [s|]; [|discriminate].
    exists s. split; reflexivity.
  - apply last_is_Some in Hne as [b Hb]. rewrite Hb.
    exists (hash (load st b)). split; [|reflexivity]. eauto.
Qed.

Lemma add_block_raises proof previous_hash now st :
  chain st = [] -> truthy_opt_str previous_hash = false ->
  add_block proof previous_hash now st = (Raise IndexError, st).
Proof.
  intros Hnil Hfalsy. unfold add_block. rewrite Hfalsy, Hnil. reflexivity.
Qed.

Lemma store_chain_spec (c : list block) :
  forall h l bs h' l',
    store_chain c h l = (bs, h', l') ->
    l' = (l + length c)%nat /\
    length bs = length c /\
    (forall k, (k < l)%nat -> h' !! k = h !! k) /\
    (forall i b, c !! i = Some b ->
       bs !! i = Some (MkBlock (index b) (timestamp b) (l + i)%nat (proof b)
                               (previous_hash b)) /\
       h' !! (l + i)%nat = Some (transactions b)).
Proof.
  induction c as [|x c IH]; intros h l bs h' l' Hstore; cbn [store_chain] in Hstore.
  - injection Hstore as <- <- <-. cbn [length].
    split_conj; [lia | reflexivity | reflexivity | intros i b Hb; discriminate].
  - destruct (store_chain c (<[l := transactions x]> h) (S l))
      as [[bs0 h0] l0] eqn:Hrec.
    injection Hstore as <- <- <-.
    destruct (IH _ _ _ _ _ Hrec) as (Hl & Hlen & Hold & Hnew).
    cbn [length]. split_conj.
    + lia.
    + now rewrite Hlen.
    + intros k Hk. rewrite Hold by lia. apply lookup_insert_ne. lia.
    + intros [|i] b Hb.
      * injection Hb as <-. rewrite Nat.add_0_r. split; [reflexivity|].
        rewrite Hold by lia. apply lookup_insert_eq.
      * destruct (Hnew i b Hb) as [Hbs Hh].
        replace (l + S i)%nat with (S l + i)%nat by lia.
        split; assumption.
Qed.

Lemma store_chain_locations (c : list block) h l bs h' l' :
  store_chain c h l = (bs, h', l') ->
  forall b, b ∈ bs -> (l <= transactions b < l')%nat.
Proof.
  intros Hstore b Hb.
  destruct (store_chain_spec c _ _ _ _ _ Hstore) as (Hl & Hlen & _ & Hnew).
  apply list_elem_of_lookup in Hb as [i Hi].
  assert (Hlt : (i < length c)%nat).
  { apply lookup_lt_Some in Hi. lia. }
  destruct (lookup_lt_is_Some_2 c i Hlt) as [x Hx].
  destruct (Hnew i x Hx) as [Hbs _]. rewrite Hi in Hbs.
  injection Hbs as ->. cbn [transactions]. lia.
Qed.

Lemma resolve_conflicts_state net order st :
  snd (resolve_conflicts net order st) = st \/
  exists c bs h l,
    c <> [] /\
    store_chain c (heap st) (next_loc st) = (bs, h, l) /\
    snd (resolve_conflicts net order st) =
    MkState h l (current_transactions st) bs (nodes st).
Proof.
  unfold resolve_conflicts.
  destruct (resolve_loop net order None (Z.of_nat (length (chain st))))
    as [[[|x c]|]|e]; try (left; reflexivity).
  right. cbn [truthy_opt_list default from_option id].
  destruct (store_chain (x :: c) (heap st) (next_loc st)) as [[bs h] l] eqn:Hs.
  exists (x :: c), bs, h, l. split_conj; [discriminate | exact Hs | reflexivity].
Qed.

Lemma new_transaction_state sender recipient amount st :
  snd (new_transaction sender recipient amount st) =
  MkState (<[current_transactions st :=
               (pool st ++ [Transaction sender recipient amount])%list]> (heap st))
          (next_loc st) (current_transactions st) (chain st) (nodes st).
Proof.
  unfold new_transaction. now destruct (last_block _).
Qed.

Lemma add_block_state proof previous_hash now st :
  snd (add_block proof previous_hash now st) = st \/
  exists b,
    add_block proof previous_hash now st =
    (Ok b,
     MkState (<[next_loc st := []]> (heap st)) (S (next_loc st)) (next_loc st)
             (chain st ++ [b]) (nodes st)) /\
    transactions b = current_transactions st.
Proof.
  unfold add_block.
  destruct (if truthy_opt_str previous_hash then _ else _) as [h|e];
    [right | left; reflexivity].
  eexists. split; reflexivity.
Qed.

Lemma register_node_state address st :
  exists ns,
    snd (register_node address st) =
    MkState (heap st) (next_loc st) (current_transactions st) (chain st) ns.
Proof.
  unfold register_node. destruct st as [h n ct ch ns].
  destruct (Url.urlparse address) as [p|e]; [|eauto].
  destruct (truthy_str (Url.netloc p)); [eauto|].
  destruct (truthy_str (Url.path p)); eauto.
Qed.

Lemma exec_well_formed c st : well_formed st -> well_formed (exec c st).
Proof.
  intros [Hct Hblocks]. destruct c as [s r a|p ph now|a|net order]; cbn [exec].
  - rewrite new_transaction_state. split; assumption.
  - destruct (add_block_state p ph now st) as [->|(b & -> & Hb)];
      [split; assumption|].
    cbn [snd]. split; cbn [current_transactions next_loc chain]; [lia|].
    intros b' [Hold| ->%list_elem_of_singleton]%elem_of_app.
    + destruct (Hblocks b' Hold). lia.
    + rewrite Hb. lia.
  - destruct (register_node_state a st) as [ns ->]. split; assumption.
  - destruct (resolve_conflicts_state net order st)
      as [->|(c & bs & h & l & _ & Hstore & ->)]; [split; assumption|].
    pose proof (store_chain_spec _ _ _ _ _ _ Hstore) as (Hl & _).
    split; cbn [current_transactions next_loc chain]; [lia|].
    intros b Hb. pose proof (store_chain_locations _ _ _ _ _ _ Hstore b Hb). lia.
Qed.

Lemma exec_chain_nonempty c st : chain st <> [] -> chain (exec c st) <> [].
Proof.
  intros Hne. destruct c as [s r a|p ph now|a|net order]; cbn [exec].
  - now rewrite new_transaction_state.
  - destruct (add_block_state p ph now st) as [->|(b & -> & _)]; [exact Hne|].
    cbn [snd chain]. intros [? _]%app_eq_nil. contradiction.
  - now destruct (register_node_state a st) as [ns ->].
  - destruct (resolve_conflicts_state net order st)
      as [->|(c & bs & h & l & Hc & Hstore & ->)]; [exact Hne|].
    cbn [chain]. intros ->.
    pose proof (store_chain_spec _ _ _ _ _ _ Hstore) as (_ & Hlen & _).
    destruct c; [congruence | discriminate].
Qed.

Lemma reachable_well_formed st : reachable st -> well_formed st.
Proof.
  induction 1 as [now|c st _ IH _].
  - rewrite init_state. cbn [snd]. split; cbn; [lia|].
    intros b ->%list_elem_of_singleton. cbn. split; [lia | discriminate].
  - now apply exec_well_formed.
Qed.

Lemma reachable_chain_nonempty st : reachable st -> chain st <> [].
Proof.
  induction 1 as [now|c st _ IH _].
  - rewrite init_state. discriminate.
  - now apply exec_chain_nonempty.
Qed.

Lemma reachable_run cs st :
  reachable st -> forallb is_ledger_call cs = true -> reachable (run cs st).
Proof.
  revert st. induction cs as [|c cs IH]; intros st Hst Hcs; [exact Hst|].
  cbn [forallb] in Hcs. apply andb_true_iff in Hcs as [Hc Hcs].
  apply IH; [|exact Hcs]. apply reachable_exec; [exact Hst|].
  now destruct c.
Qed.

(** ** The constructor and last_block *)

(** C8.  The constructor returns with a chain of exactly one block, the
    genesis block, whose index is 1; in every state a node reaches from
    there the chain is non-empty and [last_block] returns its last
    element; in particular after any sequence of transfer submissions and
    minings. *)
Theorem genesis_then_never_empty :
  (forall now,
     exists st genesis,
       init now = (Ok tt, st) /\ chain st = [genesis] /\ index genesis = 1 /\
       load st genesis = MkBlock 1 now [] 42 "secret" /\
       pool st = [] /\ nodes st = ∅) /\
  (forall st, reachable st ->
     chain st <> [] /\
     exists b, last_block st = Ok b /\ last (chain st) = Some b) /\
  (forall st cs, reachable st -> forallb is_ledger_call cs = true ->
     exists b, last_block (run cs st) = Ok b).
Proof.
  assert (Hlast : forall st, reachable st ->
            chain st <> [] /\
            exists b, last_block st = Ok b /\ last (chain st) = Some b).
  { intros st Hst. pose proof (reachable_chain_nonempty st Hst) as Hne.
    split; [exact Hne|]. unfold last_block.
    apply last_is_Some in Hne as [b ->]. eauto. }
  split_conj.
  - intros now. rewrite init_state. do 2 eexists. split_conj; reflexivity.
  - exact Hlast.
  - intros st cs Hst Hcs.
    destruct (Hlast (run cs st) (reachable_run cs st Hst Hcs)) as (_ & b & Hb & _).
    eauto.
Qed.

Lemma genesis_then_never_empty_witness :
  exists b,
    last_block
      (run [NewTransaction "A" "B" 10; AddBlock 7 None (Float "1.0");
            NewTransaction "B" "C" 5]
           node0) = Ok b.
Proof.
  apply (proj2 (proj2 genesis_then_never_empty)).
  - apply reachable_init.
  - reflexivity.
Defined.

(** ** Blocks stay as they were appended *)

Lemma exec_ledger_frame c st :
  well_formed st -> is_ledger_call c = true ->
  exists more,
    chain (exec c st) = (chain st ++ more)%list /\
    forall b, b ∈ chain st -> load (exec c st) b = load st b.
Proof.
  intros [Hct Hblocks] Hc.
  destruct c as [s r a|p ph now|a|net order]; try discriminate; cbn [exec].
  - rewrite new_transaction_state. exists []. cbn [chain].
    split; [now rewrite app_nil_r|].
    intros b Hb. destruct (Hblocks b Hb) as [_ Hne].
    unfold load, list_at. cbn [heap]. now rewrite lookup_insert_ne.
  - destruct (add_block_state p ph now st) as [->|(b & -> & _)].
    + exists []. split; [now rewrite app_nil_r | reflexivity].
    + exists [b]. cbn [snd chain]. split; [reflexivity|].
      intros old Hold. destruct (Hblocks old Hold) as [Hlt _].
      unfold load, list_at. cbn [heap]. rewrite lookup_insert_ne by lia.
      reflexivity.
Qed.

Lemma run_ledger_frame cs st :
  well_formed st -> forallb is_ledger_call cs = true ->
  exists more,
    chain (run cs st) = (chain st ++ more)%list /\
    forall b, b ∈ chain st -> load (run cs st) b = load st b.
Proof.
  revert st. induction cs as [|c cs IH]; intros st Hwf Hcs.
  - exists []. split; [now rewrite app_nil_r | reflexivity].
  - cbn [forallb] in Hcs. apply andb_true_iff in Hcs as [Hc Hcs].
    destruct (exec_ledger_frame c st Hwf Hc) as (m1 & Hchain1 & Hload1).
    destruct (IH (exec c st) (exec_well_formed c st Hwf) Hcs)
      as (m2 & Hchain2 & Hload2).
    exists (m1 ++ m2)%list. change (run (c :: cs) st) with (run cs (exec c st)).
    split.
    + rewrite Hchain2, Hchain1. now rewrite app_assoc.
    + intros b Hb. rewrite Hload2; [now apply Hload1|].
      rewrite Hchain1. apply elem_of_app. now left.
Qed.

(** C9.  From any state a node reaches, transfer submissions and minings
    in any number leave every block of the chain at its position and
    with its content, transfers included; and the block a mining has just
    appended keeps, through any such later calls, the pool of the moment
    it was mined.  A call that is not a consensus resolution leaves the
    chain as it is or appends one block to it. *)
Theorem appended_blocks_frozen :
  (forall st cs i b,
     reachable st -> forallb is_ledger_call cs = true ->
     chain st !! i = Some b ->
     chain (run cs st) !! i = Some b /\ load (run cs st) b = load st b) /\
  (forall st p h now b st' cs,
     reachable st -> add_block p h now st = (Ok b, st') ->
     forallb is_ledger_call cs = true ->
     chain (run cs st') !! length (chain st) = Some b /\
     transactions (load (run cs st') b) = pool st) /\
  (forall st c,
     (exists net order, c = ResolveConflicts net order) \/
     chain (exec c st) = chain st \/
     exists b, chain (exec c st) = (chain st ++ [b])%list).
Proof.
  assert (Hframe : forall st cs i b,
            reachable st -> forallb is_ledger_call cs = true ->
            chain st !! i = Some b ->
            chain (run cs st) !! i = Some b /\ load (run cs st) b = load st b).
  { intros st cs i b Hst Hcs Hb.
    destruct (run_ledger_frame cs st (reachable_well_formed st Hst) Hcs)
      as (more & Hchain & Hload).
    split.
    - rewrite Hchain. rewrite lookup_app_l; [exact Hb|].
      now apply lookup_lt_Some in Hb.
    - apply Hload. now apply list_elem_of_lookup_2 in Hb. }
  split; [exact Hframe|]. split; cycle 1.
  { intros st [s r a|p ph now|a|net order]; cbn [exec].
    - right. left. now rewrite new_transaction_state.
    - right. destruct (add_block_state p ph now st) as [->|(b & -> & _)];
        [now left | right; now exists b].
    - right. left. now destruct (register_node_state a st) as [ns ->].
    - left. eauto. }
  intros st p h now b st' cs Hst Hadd Hcs.
  assert (Hst' : reachable st').
  { replace st' with (exec (AddBlock p h now) st)
      by (cbn [exec]; now rewrite Hadd).
    now apply reachable_exec. }
  destruct (add_block_state p h now st) as [Hsame|(b0 & Heq & Hloc)].
  - rewrite Hadd in Hsame. cbn [snd] in Hsame. subst st'.
    destruct (add_block_ok p h now st (reachable_chain_nonempty st Hst))
      as (h0 & _ & Heq).
    rewrite Heq in Hadd. injection Hadd as _ Hstate. exfalso.
    apply (f_equal next_loc) in Hstate. cbn [next_loc] in Hstate. lia.
  - rewrite Heq in Hadd. injection Hadd as -> <-.
    destruct (reachable_well_formed st Hst) as [Hct _].
    assert (Hb : chain (MkState (<[next_loc st := []]> (heap st))
                          (S (next_loc st)) (next_loc st) (chain st ++ [b])
                          (nodes st)) !! length (chain st) = Some b).
    { cbn [chain]. rewrite lookup_app_r by lia.
      now rewrite Nat.sub_diag. }
    destruct (Hframe _ cs _ _ Hst' Hcs Hb) as [Hpos Hload].
    split; [exact Hpos|]. rewrite Hload.
    unfold load, pool, list_at. cbn [transactions heap].
    rewrite Hloc. rewrite lookup_insert_ne by lia. reflexivity.
Qed.

Lemma appended_blocks_frozen_witness :
  chain (run [NewTransaction "A" "B" 10; AddBlock 7 None (Float "1.0");
              NewTransaction "B" "C" 5] node0) !! 0%nat =
  Some (MkBlock 1 (Float "0.0") 0%nat 42 "secret") /\
  load (run [NewTransaction "A" "B" 10; AddBlock 7 None (Float "1.0");
             NewTransaction "B" "C" 5] node0)
       (MkBlock 1 (Float "0.0") 0%nat 42 "secret") =
  load node0 (MkBlock 1 (Float "0.0") 0%nat 42 "secret").
Proof.
  apply (proj1 appended_blocks_frozen).
  - apply reachable_init.
  - reflexivity.
  - reflexivity.
Defined.

(** ** add_block *)

(** A supplied but empty [previous_hash] is not kept: [or] takes the
    digest of the last block in its place. *)
Lemma add_block_empty_previous_hash :
  exists b st',
    add_block 7 (Some "") (Float "1.0") node0 = (Ok b, st') /\
    previous_hash b = hash genesis0 /\
    previous_hash b <> "".
Proof.
  do 2 eexists. split; [reflexivity|].
  cbn [previous_hash]. split; vm_compute; [reflexivity | discriminate].
Qed.

(** C6, amended.  In every state a node reaches (its chain is then
    non-empty), [add_block] appends exactly one block and returns it: its
    index is [len(chain) + 1], its timestamp the clock's, its transfers
    the whole pool of the moment of the call, its proof the given one, its
    [previous_hash] the given one when that is a non-empty string and the
    digest of the previous last block when it is [None] or empty.  The
    pool is empty afterwards, whatever it held; the earlier blocks and the
    peer set are as before. *)
Theorem add_block_appends (st : State) (p : Z) (h : option string) (now : float) :
  reachable st ->
  exists b st' tip,
    add_block p h now st = (Ok b, st') /\
    last (chain st) = Some tip /\
    chain st' = (chain st ++ [b])%list /\
    index b = Z.of_nat (length (chain st)) + 1 /\
    timestamp b = now /\
    transactions (load st' b) = pool st /\
    proof b = p /\
    previous_hash b =
      match h with
      | Some (String _ _ as given) => given
      | _ => hash (load st tip)
      end /\
    pool st' = [] /\
    (forall old, old ∈ chain st -> load st' old = load st old) /\
    nodes st' = nodes st.
Proof.
  intros Hst.
  pose proof (reachable_chain_nonempty st Hst) as Hne.
  destruct (reachable_well_formed st Hst) as [Hct Hblocks].
  destruct (add_block_ok p h now st Hne) as (d & Hd & ->).
  destruct (proj2 (last_is_Some (chain st)) Hne) as [tip Htip].
  do 2 eexists. exists tip. split; [reflexivity|].
  cbn [chain index timestamp proof previous_hash nodes].
  split_conj; try reflexivity.
  - exact Htip.
  - unfold load, pool, list_at. cbn [transactions heap].
    now rewrite lookup_insert_ne by lia.
  - destruct h as [[|a s]|]; cbn [truthy_opt_str truthy_str] in Hd.
    + destruct Hd as (b & Hb & ->). congruence.
    + congruence.
    + destruct Hd as (b & Hb & ->). congruence.
  - unfold pool, list_at. cbn [current_transactions heap].
    now rewrite lookup_insert_eq.
  - intros old Hold. destruct (Hblocks old Hold) as [Hlt _].
    unfold load, list_at. cbn [heap]. now rewrite lookup_insert_ne by lia.
Qed.

Lemma add_block_appends_witness :
  exists b st' tip,
    add_block 7 None (Float "1.0") (exec (NewTransaction "A" "B" 10) node0) =
      (Ok b, st') /\
    last (chain (exec (NewTransaction "A" "B" 10) node0)) = Some tip /\
    chain st' = (chain (exec (NewTransaction "A" "B" 10) node0) ++ [b])%list /\
    index b =
      Z.of_nat (length (chain (exec (NewTransaction "A" "B" 10) node0))) + 1 /\
    timestamp b = Float "1.0" /\
    transactions (load st' b) = pool (exec (NewTransaction "A" "B" 10) node0) /\
    proof b = 7 /\
    previous_hash b =
      hash (load (exec (NewTransaction "A" "B" 10) node0) tip) /\
    pool st' = [] /\
    (forall old, old ∈ chain (exec (NewTransaction "A" "B" 10) node0) ->
       load st' old = load (exec (NewTransaction "A" "B" 10) node0) old) /\
    nodes st' = nodes (exec (NewTransaction "A" "B" 10) node0).
Proof.
  apply (add_block_appends (exec (NewTransaction "A" "B" 10) node0) 7 None
           (Float "1.0")).
  apply reachable_exec; [apply reachable_init | exact I].
Defined.

(** ** register_node *)

Lemma truthy_str_true s : truthy_str s = true <-> s <> "".
Proof. destruct s; split; (congruence || discriminate || reflexivity). Qed.

Lemma truthy_str_false s : truthy_str s = false <-> s = "".
Proof. destruct s; split; (congruence || discriminate || reflexivity). Qed.

Lemma union_singleton_again (x : string) (s : gset string) :
  {[ x ]} ∪ ({[ x ]} ∪ s) = {[ x ]} ∪ s.
Proof. rewrite (assoc_L (∪)). now rewrite union_idemp_L. Qed.

(** The only exception [urlparse] raises by itself. *)
Lemma urlparse_raises address e :
  Url.urlparse address = Raise e -> e = ValueError "Invalid IPv6 URL".
Proof.
  unfold Url.urlparse.
  destruct (Url.split_scheme _) as [scheme url].
  destruct (Url.split_netloc url) as [[loc rest]|e'] eqn:Hnet.
  - destruct (Url.split_once 35 rest "") as [u1 frag].
    destruct (Url.split_once 63 u1 "") as [u2 q].
    destruct (bool_decide (scheme ∈ Url.uses_params) &&
              Url.any_char (Url.is_char 59) u2);
      [destruct (Url.splitparams u2)|]; discriminate.
  - intros [= <-]. unfold Url.split_netloc in Hnet.
    destruct url as [|c1 [|c2 rest]]; try discriminate.
    destruct (Url.is_char 47 c1 && Url.is_char 47 c2); [|discriminate].
    destruct (Url.break _ rest) as [loc url'].
    destruct (_ || _); [|discriminate]. now injection Hnet as <-.
Qed.

Lemma register_node_cases address st :
  match Url.urlparse address with
  | Raise e => register_node address st = (Raise e, st)
  | Ok p =>
      if truthy_str (Url.netloc p) then
        register_node address st =
        (Ok tt, MkState (heap st) (next_loc st) (current_transactions st)
                        (chain st) ({[ Url.netloc p ]} ∪ nodes st))
      else if truthy_str (Url.path p) then
        register_node address st =
        (Ok tt, MkState (heap st) (next_loc st) (current_transactions st)
                        (chain st) ({[ Url.path p ]} ∪ nodes st))
      else register_node address st = (Raise (ValueError "URL Invalid!"), st)
  end.
Proof.
  unfold register_node. destruct (Url.urlparse address) as [p|e]; [|reflexivity].
  destruct (truthy_str (Url.netloc p)); [reflexivity|].
  destruct (truthy_str (Url.path p)); reflexivity.
Qed.

(** An address without a scheme is stored: ["notaurl"] has no network
    location but it is its own path component. *)
Lemma register_node_notaurl_stored :
  exists st',
    register_node "notaurl" node0 = (Ok tt, st') /\
    nodes st' = {[ "notaurl" ]}.
Proof.
  pose proof (register_node_cases "notaurl" node0) as H.
  assert (Hp : Url.urlparse "notaurl" =
               Ok (Url.MkParseResult "" "" "notaurl" "" "" ""))
    by (vm_compute; reflexivity).
  rewrite Hp in H. cbn [truthy_str Url.netloc Url.path] in H. rewrite H. eexists. split; [reflexivity|].
  cbn [nodes]. apply union_empty_r_L.
Qed.

(** C7, amended.  [register_node] stores the network location of the
    address when it has one, otherwise its path component when that is
    non-empty, and raises [ValueError('URL Invalid!')] exactly when the
    address parses with both empty; nothing but the peer set changes.
    ["http://10.0.0.5:5000"] is stored as ["10.0.0.5:5000"], ["notaurl"]
    is stored as ["notaurl"], the empty address raises; registering an
    address a second time changes nothing. *)
Theorem register_node_stores (address : string) (st : State) :
  (forall p, Url.urlparse address = Ok p -> Url.netloc p <> "" ->
     register_node address st =
     (Ok tt, MkState (heap st) (next_loc st) (current_transactions st)
                     (chain st) ({[ Url.netloc p ]} ∪ nodes st))) /\
  (forall p, Url.urlparse address = Ok p -> Url.netloc p = "" ->
     Url.path p <> "" ->
     register_node address st =
     (Ok tt, MkState (heap st) (next_loc st) (current_transactions st)
                     (chain st) ({[ Url.path p ]} ∪ nodes st))) /\
  (fst (register_node address st) = Raise (ValueError "URL Invalid!") <->
   exists p, Url.urlparse address = Ok p /\ Url.netloc p = "" /\ Url.path p = "") /\
  (forall st', register_node address st = (Ok tt, st') ->
     register_node address st' = (Ok tt, st')) /\
  nodes (snd (register_node "http://10.0.0.5:5000" st)) =
    {[ "10.0.0.5:5000" ]} ∪ nodes st /\
  nodes (snd (register_node "notaurl" st)) = {[ "notaurl" ]} ∪ nodes st /\
  register_node "" st = (Raise (ValueError "URL Invalid!"), st).
Proof.
  split_conj.
  - intros p Hp Hnet. pose proof (register_node_cases address st) as H.
    rewrite Hp in H. apply truthy_str_true in Hnet. now rewrite Hnet in H.
  - intros p Hp Hnet Hpath. pose proof (register_node_cases address st) as H.
    rewrite Hp in H. apply truthy_str_false in Hnet. apply truthy_str_true in Hpath.
    now rewrite Hnet, Hpath in H.
  - pose proof (register_node_cases address st) as H. split.
    + intros Hraise. destruct (Url.urlparse address) as [p|e] eqn:Hp.
      * exists p. split; [reflexivity|].
        destruct (truthy_str (Url.netloc p)) eqn:Hnet;
          [rewrite H in Hraise; discriminate|].
        destruct (truthy_str (Url.path p)) eqn:Hpath;
          [rewrite H in Hraise; discriminate|].
        split; now apply truthy_str_false.
      * rewrite H in Hraise. cbn [fst] in Hraise.
        apply urlparse_raises in Hp. congruence.
    + intros (p & Hp & Hnet & Hpath). rewrite Hp in H.
      apply truthy_str_false in Hnet, Hpath. rewrite Hnet, Hpath in H.
      now rewrite H.
  - intros st' Hreg.
    pose proof (register_node_cases address st) as H.
    pose proof (register_node_cases address st') as H'.
    destruct (Url.urlparse address) as [p|e]; [|congruence].
    destruct (truthy_str (Url.netloc p)).
    + rewrite H in Hreg. injection Hreg as <-. rewrite H'.
      cbn [heap next_loc current_transactions chain nodes].
      now rewrite union_singleton_again.
    + destruct (truthy_str (Url.path p)); [|congruence].
      rewrite H in Hreg. injection Hreg as <-. rewrite H'.
      cbn [heap next_loc current_transactions chain nodes].
      now rewrite union_singleton_again.
  - pose proof (register_node_cases "http://10.0.0.5:5000" st) as H.
    assert (Hp : Url.urlparse "http://10.0.0.5:5000" =
                 Ok (Url.MkParseResult "http" "10.0.0.5:5000" "" "" "" ""))
      by (vm_compute; reflexivity).
    rewrite Hp in H. cbn [truthy_str Url.netloc Url.path] in H. now rewrite H.
  - pose proof (register_node_cases "notaurl" st) as H.
    assert (Hp : Url.urlparse "notaurl" =
                 Ok (Url.MkParseResult "" "" "notaurl" "" "" ""))
      by (vm_compute; reflexivity).
    rewrite Hp in H. cbn [truthy_str Url.netloc Url.path] in H. now rewrite H.
  - pose proof (register_node_cases "" st) as H.
    assert (Hp : Url.urlparse "" = Ok (Url.MkParseResult "" "" "" "" "" ""))
      by (vm_compute; reflexivity).
    rewrite Hp in H. exact H.
Qed.

Lemma register_node_stores_witness :
  register_node "http://10.0.0.5:5000" node0 =
  (Ok tt, MkState (heap node0) (next_loc node0) (current_transactions node0)
                  (chain node0) ({[ "10.0.0.5:5000" ]} ∪ nodes node0)).
Proof.
  apply (proj1 (register_node_stores "http://10.0.0.5:5000" node0)
           (Url.MkParseResult "http" "10.0.0.5:5000" "" "" "" "")).
  - vm_compute. reflexivity.
  - discriminate.
Defined.

(** ** resolve_conflicts *)

Lemma valid_chain_raises (c : list block) e :
  valid_chain c = Raise e -> c = [].
Proof. destruct c; [reflexivity | discriminate]. Qed.

Lemma store_chain_load (c : list block) h l bs h' l' st' :
  store_chain c h l = (bs, h', l') -> heap st' = h' ->
  map (load st') bs = c.
Proof.
  intros Hstore Hheap.
  destruct (store_chain_spec c _ _ _ _ _ Hstore) as (_ & Hlen & _ & Hnew).
  apply list_eq. intros i. rewrite list_lookup_fmap.
  destruct (c !! i) as [b|] eqn:Hb.
  - destruct (Hnew i b Hb) as [-> Hh]. cbn [fmap option_fmap option_map].
    unfold load, list_at. cbn [index timestamp transactions proof previous_hash].
    rewrite Hheap, Hh. now destruct b.
  - apply lookup_ge_None in Hb. rewrite <- Hlen in Hb.
    apply lookup_ge_None in Hb. now rewrite Hb.
Qed.

Lemma resolve_loop_cons net node order new_chain m :
  resolve_loop net (node :: order) new_chain m =
  if status_code (net (chain_url node)) =? 200 then
    if json_length (net (chain_url node)) >? m then
      match valid_chain (json_chain (net (chain_url node))) with
      | Raise e => Raise e
      | Ok true =>
          resolve_loop net order (Some (json_chain (net (chain_url node))))
                       (json_length (net (chain_url node)))
      | Ok false => resolve_loop net order new_chain m
      end
    else resolve_loop net order new_chain m
  else resolve_loop net order new_chain m.
Proof. reflexivity. Qed.

(** The loop, on answers that all carry at least one block: it ends
    either with what it started from, no peer being eligible, or with the
    chain of an eligible peer whose reported length no eligible peer
    exceeds. *)
Lemma resolve_loop_longest net order :
  (forall node, node ∈ order -> json_chain (net (chain_url node)) <> []) ->
  forall new_chain m,
  exists new_chain',
    resolve_loop net order new_chain m = Ok new_chain' /\
    ((new_chain' = new_chain /\ forall node, node ∈ order -> ~ eligible net m node) \/
     (exists node,
        node ∈ order /\ eligible net m node /\
        new_chain' = Some (json_chain (net (chain_url node))) /\
        forall other, other ∈ order -> eligible net m other ->
          json_length (net (chain_url other)) <=
          json_length (net (chain_url node)))).
Proof.
  induction order as [|node order IH]; intros Hne new_chain m.
  - exists new_chain. split; [reflexivity|]. left. split; [reflexivity|].
    intros node Hin. now apply elem_of_nil in Hin.
  - assert (Hne' : forall n, n ∈ order ->
                     json_chain (net (chain_url n)) <> []).
    { intros n Hn. apply Hne. now apply elem_of_cons; right. }
    assert (Hskip : ~ eligible net m node ->
              resolve_loop net order new_chain m =
              resolve_loop net (node :: order) new_chain m ->
              exists new_chain',
                resolve_loop net (node :: order) new_chain m = Ok new_chain' /\
                ((new_chain' = new_chain /\
                  forall n, n ∈ node :: order -> ~ eligible net m n) \/
                 (exists n,
                    n ∈ node :: order /\ eligible net m n /\
                    new_chain' = Some (json_chain (net (chain_url n))) /\
                    forall other, other ∈ node :: order ->
                      eligible net m other ->
                      json_length (net (chain_url other)) <=
                      json_length (net (chain_url n))))).
    { intros Hnot <-.
      destruct (IH Hne' new_chain m) as (nc & Hloop & [[-> Hnone]|Hsome]).
      - exists new_chain. split; [exact Hloop|]. left. split; [reflexivity|].
        intros n [->|Hn]%elem_of_cons; [exact Hnot | now apply Hnone].
      - destruct Hsome as (n & Hn & Hel & -> & Hmax).
        eexists. split; [exact Hloop|]. right. exists n. split_conj.
        + apply elem_of_cons. now right.
        + exact Hel.
        + reflexivity.
        + intros other [->|Ho]%elem_of_cons Helo; [contradiction|].
          now apply Hmax. }
    destruct (status_code (net (chain_url node)) =? 200) eqn:Hstatus.
    2: { apply Hskip; [|now rewrite resolve_loop_cons, Hstatus].
         intros (Hs & _). apply Z.eqb_neq in Hstatus. contradiction. }
    destruct (json_length (net (chain_url node)) >? m) eqn:Hlen.
    2: { apply Hskip; [|now rewrite resolve_loop_cons, Hstatus, Hlen].
         intros (_ & Hl & _). rewrite Z.gtb_ltb in Hlen.
         apply Z.ltb_ge in Hlen. lia. }
    destruct (valid_chain (json_chain (net (chain_url node))))
      as [[|]|e] eqn:Hvalid.
    + rewrite resolve_loop_cons, Hstatus, Hlen, Hvalid.
      apply Z.eqb_eq in Hstatus. rewrite Z.gtb_ltb in Hlen.
      apply Z.ltb_lt in Hlen.
      assert (Hnode : eligible net m node)
        by (split_eligible; [assumption|lia|assumption]).
      destruct (IH Hne' (Some (json_chain (net (chain_url node))))
                  (json_length (net (chain_url node))))
        as (nc & Hloop & [[-> Hnone]|Hsome]).
      * eexists. split; [exact Hloop|]. right. exists node. split_conj.
        -- apply elem_of_cons. now left.
        -- exact Hnode.
        -- reflexivity.
        -- intros other [->|Ho]%elem_of_cons Helo; [lia|].
           destruct Helo as (Hs & Hl & Hv).
           destruct (Z_le_gt_dec (json_length (net (chain_url other)))
                       (json_length (net (chain_url node)))) as [Hle|Hgt];
             [exact Hle|].
           exfalso. apply (Hnone other Ho). split_eligible; assumption.
      * destruct Hsome as (n & Hn & (Hs & Hl & Hv) & -> & Hmax).
        eexists. split; [exact Hloop|]. right. exists n. split_conj.
        -- apply elem_of_cons. now right.
        -- split_eligible; [assumption | lia | assumption].
        -- reflexivity.
        -- intros other [->|Ho]%elem_of_cons Helo; [lia|].
           destruct Helo as (Hs' & Hl' & Hv').
           destruct (Z_le_gt_dec (json_length (net (chain_url other)))
                       (json_length (net (chain_url node)))) as [Hle|Hgt];
             [lia|].
           apply Hmax; [exact Ho|]. split_eligible; assumption.
    + apply Hskip; [|now rewrite resolve_loop_cons, Hstatus, Hlen, Hvalid].
      intros (_ & _ & Hv). congruence.
    + apply valid_chain_raises in Hvalid. exfalso.
      apply (Hne node); [apply elem_of_cons; now left | exact Hvalid].
Qed.

(** [resolve_conflicts], on answers that all carry at least one block.
    Either no peer is eligible, and it returns [False] and leaves the
    state as it is; or it returns [True] and the chain is that of an
    eligible peer: one that answered with status 200, reported a length
    strictly above the local chain's, sent a chain [valid_chain] accepts,
    and whose reported length no eligible peer exceeds. *)
Lemma resolve_conflicts_longest net order st :
  (forall node, node ∈ order -> json_chain (net (chain_url node)) <> []) ->
  (resolve_conflicts net order st = (Ok false, st) /\
   forall node, node ∈ order ->
     ~ eligible net (Z.of_nat (length (chain st))) node) \/
  (exists node st',
     resolve_conflicts net order st = (Ok true, st') /\
     node ∈ order /\
     eligible net (Z.of_nat (length (chain st))) node /\
     (forall other, other ∈ order ->
        eligible net (Z.of_nat (length (chain st))) other ->
        json_length (net (chain_url other)) <=
        json_length (net (chain_url node))) /\
     chain_data st' = json_chain (net (chain_url node)) /\
     current_transactions st' = current_transactions st /\
     nodes st' = nodes st).
Proof.
  intros Hne. unfold resolve_conflicts.
  destruct (resolve_loop_longest net order Hne None
              (Z.of_nat (length (chain st))))
    as (nc & -> & [[-> Hnone]|(node & Hin & Hel & -> & Hmax)]).
  - left. split; [reflexivity | exact Hnone].
  - right. pose proof Hel as (_ & _ & Hvalid).
    destruct (json_chain (net (chain_url node))) as [|x c] eqn:Hc;
      [discriminate|].
    cbn [truthy_opt_list default from_option id].
    destruct (store_chain (x :: c) (heap st) (next_loc st))
      as [[bs h] l] eqn:Hstore.
    exists node. eexists. split; [reflexivity|].
    split_conj; try assumption; try reflexivity.
    unfold chain_data. cbn [chain]. rewrite Hc.
    now apply (store_chain_load _ _ _ _ _ _ _ Hstore).
Qed.

(** C1.  A peer that reports a longer chain and sends an empty one makes
    [resolve_conflicts] raise [IndexError], in whichever order the two
    peers are visited: it returns neither [True] nor [False], and the
    chain is not replaced although the other peer serves a valid chain
    strictly longer than the local one. *)
Theorem resolve_conflicts_empty_chain_raises :
  reachable node_with_peers /\
  elements (nodes node_with_peers) ≡ₚ [peer_a; peer_b] /\
  length (chain node_with_peers) = 1%nat /\
  eligible net_empty_chain 1 peer_a /\
  json_chain (net_empty_chain (chain_url peer_b)) = [] /\
  resolve_conflicts net_empty_chain [peer_a; peer_b] node_with_peers =
    (Raise IndexError, node_with_peers) /\
  resolve_conflicts net_empty_chain [peer_b; peer_a] node_with_peers =
    (Raise IndexError, node_with_peers).
Proof.
  split_conj.
  - unfold node_with_peers.
    repeat (apply reachable_exec; [|exact I]). apply reachable_init.
  - vm_compute. reflexivity.
  - reflexivity.
  - split_eligible; vm_compute; reflexivity.
  - reflexivity.
  - vm_compute. reflexivity.
  - vm_compute. reflexivity.
Qed.

(** C10.  Replacement goes by the reported length alone.  A node with two
    blocks, whose one peer answers with a reported length of three and a
    valid chain of a single block, replaces its chain by that shorter
    one. *)
Theorem resolve_conflicts_trusts_reported_length :
  exists st net order node st',
    reachable st /\
    order ≡ₚ elements (nodes st) /\
    node ∈ order /\
    status_code (net (chain_url node)) = 200 /\
    json_length (net (chain_url node)) > Z.of_nat (length (chain st)) /\
    (length (json_chain (net (chain_url node))) < length (chain st))%nat /\
    valid_chain (json_chain (net (chain_url node))) = Ok true /\
    resolve_conflicts net order st = (Ok true, st') /\
    chain_data st' = json_chain (net (chain_url node)) /\
    (length (chain st') < length (chain st))%nat.
Proof.
  exists node_two_blocks, net_short_chain, [peer_a], peer_a,
    (snd (resolve_conflicts net_short_chain [peer_a] node_two_blocks)).
  split_conj.
  - unfold node_two_blocks.
    repeat (apply reachable_exec; [|exact I]). apply reachable_init.
  - vm_compute. reflexivity.
  - apply list_elem_of_singleton. reflexivity.
  - reflexivity.
  - vm_compute. reflexivity.
  - vm_compute. lia.
  - reflexivity.
  - vm_compute. reflexivity.
  - vm_compute. reflexivity.
  - vm_compute. lia.
Qed.

(** * Further properties of the code *)

(** ** valid_chain, block by block *)

Lemma valid_chain_loop_snoc x rest b :
  valid_chain_loop x (rest ++ [b]) =
  valid_chain_loop x rest && link_ok (default x (last rest)) b.
Proof.
  revert x. induction rest as [|y rest IH]; intros x.
  - change (([] ++ [b])%list) with [b].
    rewrite valid_chain_loop_cons. cbn. now rewrite andb_true_r.
  - change (((y :: rest) ++ [b])%list) with (y :: (rest ++ [b])%list).
    rewrite !valid_chain_loop_cons, IH, andb_assoc. do 2 f_equal.
    rewrite last_cons. now destruct (last rest).
Qed.

Lemma valid_chain_snoc (c : list block) tip b :
  last c = Some tip ->
  valid_chain (c ++ [b]) =
  match valid_chain c with
  | Ok ok => Ok (ok && link_ok tip b)
  | Raise e => Raise e
  end.
Proof.
  destruct c as [|x rest]; [discriminate|]. intros Htip.
  change (((x :: rest) ++ [b])%list) with (x :: (rest ++ [b])%list).
  cbn [valid_chain]. rewrite valid_chain_loop_snoc. do 3 f_equal.
  destruct rest as [|y rest]; [now injection Htip|].
  rewrite last_cons_cons in Htip. now rewrite Htip.
Qed.

(** X1.  A block appended to a chain that has a last block gives a chain
    [valid_chain] accepts exactly when it accepted the chain before and
    the new block carries the digest of that last block and a proof that
    validates against it. *)
Theorem valid_chain_extends (c : list block) (tip b : block) :
  last c = Some tip ->
  (valid_chain (c ++ [b]) = Ok true <->
   valid_chain c = Ok true /\
   previous_hash b = hash tip /\
   validate (proof tip) (proof b) (hash tip) = true).
Proof.
  intros Htip. rewrite (valid_chain_snoc c tip b Htip).
  rewrite <- link_ok_true.
  destruct (valid_chain c) as [[|]|e]; cbn [andb]; split.
  - intros [= ->]. split; reflexivity.
  - intros [_ ->]. reflexivity.
  - discriminate.
  - intros [[=] _].
  - discriminate.
  - intros [[=] _].
Qed.

Lemma valid_chain_extends_witness :
  valid_chain ([genesis0] ++ [mined1]) = Ok true <->
  valid_chain [genesis0] = Ok true /\
  previous_hash mined1 = hash genesis0 /\
  validate (proof genesis0) (proof mined1) (hash genesis0) = true.
Proof.
  apply (valid_chain_extends [genesis0] genesis0 mined1). reflexivity.
Defined.

(** X2.  Of the last block [valid_chain] reads only [previous_hash] and
    [proof]: two chains that differ in nothing else get the same answer,
    whatever the index, the timestamp and the transfers of their last
    block; and a lone block is accepted whatever it holds. *)
Theorem valid_chain_last_block_unread :
  (forall (c : list block) (b b' : block),
     previous_hash b' = previous_hash b -> proof b' = proof b ->
     valid_chain (c ++ [b']) = valid_chain (c ++ [b])) /\
  (forall b : block, valid_chain [b] = Ok true).
Proof.
  split; [|reflexivity].
  intros c b b' Hprev Hproof.
  destruct (last c) as [tip|] eqn:Htip.
  - rewrite !(valid_chain_snoc c tip) by exact Htip.
    unfold link_ok. now rewrite Hprev, Hproof.
  - apply last_None in Htip. subst c. reflexivity.
Qed.

Lemma valid_chain_last_block_unread_witness :
  valid_chain
    ([genesis0] ++ [MkBlock 99 (Float "5.0") [Transaction "x" "y" 1]
                            (proof mined1) (previous_hash mined1)]) =
  valid_chain ([genesis0] ++ [mined1]).
Proof.
  apply (proj1 valid_chain_last_block_unread); reflexivity.
Defined.

(** X3.  Every non-empty run of consecutive blocks of a chain that
    [valid_chain] accepts is accepted too: nothing ties a chain to a
    first block or to a length. *)
Theorem valid_chain_segment (c : list block) (k n : nat) :
  valid_chain c = Ok true ->
  take n (drop k c) <> [] ->
  valid_chain (take n (drop k c)) = Ok true.
Proof.
  intros Hvalid Hne. apply valid_chain_true in Hvalid as [_ Hlinks].
  apply valid_chain_true. split; [exact Hne|].
  intros i prev cur Hprev Hcur.
  apply lookup_take_Some in Hprev as [Hprev _].
  apply lookup_take_Some in Hcur as [Hcur _].
  rewrite lookup_drop in Hprev, Hcur.
  apply (Hlinks (k + i)%nat); [exact Hprev|].
  now replace (S (k + i)) with (k + S i)%nat by lia.
Qed.

Lemma valid_chain_segment_witness :
  valid_chain (take 2 (drop 1 [genesis0; mined1; mined2])) = Ok true.
Proof.
  apply valid_chain_segment; [vm_compute; reflexivity | discriminate].
Defined.

(** ** validate across difficulties *)

(** X4.  A proof that meets a difficulty meets every lower one: with
    [0 <= d <= d'], [validate] at [d'] implies [validate] at [d]. *)
Theorem validate_at_lower_difficulty (last_proof proof : Z) (last_hash : string)
    (d d' : Z) :
  0 <= d <= d' ->
  validate_at last_proof proof last_hash d' = true ->
  validate_at last_proof proof last_hash d = true.
Proof.
  intros Hd Hmeets.
  apply validate_at_true_iff; [lia|]. intros i Hi.
  assert (Hd' : 0 <= d') by lia.
  apply (proj1 (validate_at_true_iff last_proof proof last_hash d' Hd') Hmeets).
  lia.
Qed.

Lemma validate_at_lower_difficulty_witness :
  validate_at 42 29008 (hash genesis0) 2 = true.
Proof.
  apply (validate_at_lower_difficulty 42 29008 (hash genesis0) 2 4);
    [lia | vm_compute; reflexivity].
Defined.

(** ** The pool and the chain under the calls *)

Lemma pool_new_transaction sender recipient amount st :
  pool (snd (new_transaction sender recipient amount st)) =
  (pool st ++ [Transaction sender recipient amount])%list.
Proof.
  rewrite new_transaction_state. unfold pool at 1, list_at.
  cbn [heap current_transactions]. now rewrite lookup_insert_eq.
Qed.

Lemma pool_run_submit txs st :
  pool (run (map submit txs) st) = (pool st ++ txs)%list.
Proof.
  revert st. induction txs as [|tx txs IH]; intros st.
  - now rewrite app_nil_r.
  - change (run (map submit (tx :: txs)) st)
      with (run (map submit txs) (exec (submit tx) st)).
    rewrite IH. cbn [exec submit]. rewrite pool_new_transaction.
    rewrite <- app_assoc. now destruct tx.
Qed.

Lemma submit_is_ledger_call txs :
  forallb is_ledger_call (map submit txs) = true.
Proof. induction txs as [|tx txs IH]; [reflexivity | exact IH]. Qed.

Lemma add_block_effect p h now st :
  well_formed st -> chain st <> [] ->
  exists b st' tip,
    add_block p h now st = (Ok b, st') /\
    last (chain st) = Some tip /\
    chain st' = (chain st ++ [b])%list /\
    index b = Z.of_nat (length (chain st)) + 1 /\
    proof b = p /\
    previous_hash b =
      (if truthy_opt_str h then default "" h else hash (load st tip)) /\
    transactions (load st' b) = pool st /\
    pool st' = [] /\
    nodes st' = nodes st /\
    forall old, old ∈ chain st -> load st' old = load st old.
Proof.
  intros [Hct Hblocks] Hne.
  destruct (add_block_ok p h now st Hne) as (d & Hd & ->).
  destruct (proj2 (last_is_Some (chain st)) Hne) as [tip Htip].
  do 2 eexists. exists tip. split; [reflexivity|].
  cbn [chain index proof previous_hash nodes]. split_conj; try reflexivity.
  - exact Htip.
  - destruct (truthy_opt_str h).
    + now rewrite <- Hd.
    + destruct Hd as (b & Hb & ->). congruence.
  - unfold load, pool, list_at. cbn [transactions heap].
    now rewrite lookup_insert_ne by lia.
  - unfold pool, list_at. cbn [current_transactions heap].
    now rewrite lookup_insert_eq.
  - intros old Hold. destruct (Hblocks old Hold) as [Hlt _].
    unfold load, list_at. cbn [heap]. now rewrite lookup_insert_ne by lia.
Qed.

Lemma chain_data_snoc st st' b :
  chain st' = (chain st ++ [b])%list ->
  (forall old, old ∈ chain st -> load st' old = load st old) ->
  chain_data st' = (chain_data st ++ [load st' b])%list.
Proof.
  intros Hchain Hold. unfold chain_data. rewrite Hchain, map_app.
  f_equal. apply map_ext_in. intros old Hin. apply Hold.
  now apply list_elem_of_In.
Qed.

Lemma chain_data_new_transaction sender recipient amount st :
  well_formed st ->
  chain_data (snd (new_transaction sender recipient amount st)) = chain_data st.
Proof.
  intros [_ Hblocks]. rewrite new_transaction_state. unfold chain_data.
  cbn [chain]. apply map_ext_in. intros b Hb%list_elem_of_In.
  destruct (Hblocks b Hb) as [_ Hne].
  unfold load, list_at. cbn [heap]. now rewrite lookup_insert_ne.
Qed.

Lemma last_chain_data st tip :
  last (chain st) = Some tip -> last (chain_data st) = Some (load st tip).
Proof.
  intros Htip. unfold chain_data. rewrite fmap_last, Htip. reflexivity.
Qed.

(** X5.  Transfers reach a block in the order of their submission and
    only once.  From any state a node reaches, submitting [txs] and
    mining puts the pool of before followed by [txs] into the new block;
    submitting [txs'] and mining again puts exactly [txs'] into the next
    block and leaves the first block and an empty pool. *)
Theorem transfers_mined_in_order_once (st : State) (txs txs' : list transaction)
    (p p' : Z) (h h' : option string) (now now' : float) :
  reachable st ->
  exists b st1 b' st2,
    add_block p h now (run (map submit txs) st) = (Ok b, st1) /\
    transactions (load st1 b) = (pool st ++ txs)%list /\
    add_block p' h' now' (run (map submit txs') st1) = (Ok b', st2) /\
    transactions (load st2 b') = txs' /\
    transactions (load st2 b) = (pool st ++ txs)%list /\
    pool st2 = [].
Proof.
  intros Hst.
  pose proof (reachable_run _ _ Hst (submit_is_ledger_call txs)) as Hr1.
  destruct (add_block_effect p h now _ (reachable_well_formed _ Hr1)
              (reachable_chain_nonempty _ Hr1))
    as (b & st1 & tip & Hadd & _ & Hchain & _ & _ & _ & Htxs & Hpool & _ & _).
  assert (Hst1 : reachable st1).
  { replace st1 with (exec (AddBlock p h now) (run (map submit txs) st))
      by (cbn [exec]; now rewrite Hadd).
    now apply reachable_exec. }
  destruct (run_ledger_frame (map submit txs') st1
              (reachable_well_formed _ Hst1) (submit_is_ledger_call txs'))
    as (more & Hchain' & Hframe).
  pose proof (reachable_run _ _ Hst1 (submit_is_ledger_call txs')) as Hr2.
  destruct (add_block_effect p' h' now' _ (reachable_well_formed _ Hr2)
              (reachable_chain_nonempty _ Hr2))
    as (b' & st2 & tip' & Hadd' & _ & _ & _ & _ & _ & Htxs' & Hpool' & _ & Hold).
  exists b, st1, b', st2. split_conj.
  - exact Hadd.
  - now rewrite Htxs, pool_run_submit.
  - exact Hadd'.
  - now rewrite Htxs', pool_run_submit, Hpool.
  - assert (Hb : b ∈ chain st1).
    { rewrite Hchain. apply elem_of_app. right. now apply list_elem_of_singleton. }
    rewrite Hold, Hframe, Htxs, pool_run_submit; [reflexivity | exact Hb |].
    rewrite Hchain'. apply elem_of_app. now left.
  - exact Hpool'.
Qed.

Lemma transfers_mined_in_order_once_witness :
  exists b st1 b' st2,
    add_block 7 None (Float "1.0")
      (run (map submit [Transaction "A" "B" 10; Transaction "B" "C" 5]) node0) =
      (Ok b, st1) /\
    transactions (load st1 b) =
      (pool node0 ++ [Transaction "A" "B" 10; Transaction "B" "C" 5])%list /\
    add_block 8 None (Float "2.0")
      (run (map submit [Transaction "C" "A" 1]) st1) = (Ok b', st2) /\
    transactions (load st2 b') = [Transaction "C" "A" 1] /\
    transactions (load st2 b) =
      (pool node0 ++ [Transaction "A" "B" 10; Transaction "B" "C" 5])%list /\
    pool st2 = [].
Proof.
  apply (transfers_mined_in_order_once node0). apply reachable_init.
Defined.

Lemma contiguous_exec c st :
  is_resolve c = false ->
  (forall i b, chain st !! i = Some b -> index b = Z.of_nat i + 1) ->
  forall i b, chain (exec c st) !! i = Some b -> index b = Z.of_nat i + 1.
Proof.
  intros Hc Hinv. destruct c as [s r a|p h now|a|net order];
    try discriminate; cbn [exec].
  - now rewrite new_transaction_state.
  - destruct (add_block_state p h now st) as [->|(b0 & Hadd & _)];
      [exact Hinv|].
    assert (Hidx : index b0 = Z.of_nat (length (chain st)) + 1).
    { unfold add_block in Hadd.
      destruct (if truthy_opt_str h then _ else _); [|discriminate].
      now injection Hadd as <-. }
    rewrite Hadd. cbn [snd chain]. intros i b Hb.
    apply lookup_app_Some in Hb as [Hb|[Hlen Hb]]; [now apply Hinv|].
    apply list_lookup_singleton_Some in Hb as [Hi ->].
    rewrite Hidx. f_equal. lia.
  - now destruct (register_node_state a st) as [ns ->].
Qed.

Lemma contiguous_run cs st :
  forallb (fun c => negb (is_resolve c)) cs = true ->
  (forall i b, chain st !! i = Some b -> index b = Z.of_nat i + 1) ->
  forall i b, chain (run cs st) !! i = Some b -> index b = Z.of_nat i + 1.
Proof.
  revert st. induction cs as [|c cs IH]; intros st Hcs Hinv; [exact Hinv|].
  cbn [forallb] in Hcs. apply andb_true_iff in Hcs as [Hc Hcs].
  apply (IH (exec c st) Hcs). apply contiguous_exec; [|exact Hinv].
  now destruct (is_resolve c).
Qed.

Lemma reachable_run_local cs st :
  reachable st -> forallb (fun c => negb (is_resolve c)) cs = true ->
  reachable (run cs st).
Proof.
  revert st. induction cs as [|c cs IH]; intros st Hst Hcs; [exact Hst|].
  cbn [forallb] in Hcs. apply andb_true_iff in Hcs as [Hc Hcs].
  apply IH; [|exact Hcs]. apply reachable_exec; [exact Hst|].
  now destruct c.
Qed.

(** X6.  While no chain is taken from a peer, a block's index is its
    position counted from 1, and the number [new_transaction] returns is
    the index of the block that the next [add_block] creates. *)
Theorem new_transaction_announces_next_index (now : float) (cs : list call)
    (sender recipient : string) (amount : Z) :
  forallb (fun c => negb (is_resolve c)) cs = true ->
  let st := run cs (snd (init now)) in
  (forall i b, chain st !! i = Some b -> index b = Z.of_nat i + 1) /\
  exists st1,
    new_transaction sender recipient amount st =
      (Ok (Z.of_nat (length (chain st)) + 1), st1) /\
    forall p h now',
      exists b st2,
        add_block p h now' st1 = (Ok b, st2) /\
        index b = Z.of_nat (length (chain st)) + 1.
Proof.
  intros Hcs st.
  assert (Hinv : forall i b, chain st !! i = Some b -> index b = Z.of_nat i + 1).
  { apply contiguous_run; [exact Hcs|]. rewrite init_state. cbn [snd chain].
    intros i b Hb. apply list_lookup_singleton_Some in Hb as [-> <-].
    reflexivity. }
  assert (Hst : reachable st).
  { apply reachable_run_local; [apply reachable_init | exact Hcs]. }
  split; [exact Hinv|].
  pose proof (reachable_chain_nonempty st Hst) as Hne.
  destruct (proj2 (last_is_Some (chain st)) Hne) as [tip Htip].
  assert (Htipidx : index tip = Z.of_nat (length (chain st))).
  { rewrite last_lookup in Htip. rewrite (Hinv _ _ Htip).
    destruct (chain st); [congruence | cbn [length Nat.pred]; lia]. }
  exists (snd (new_transaction sender recipient amount st)). split.
  - unfold new_transaction, last_block. cbn [chain]. rewrite Htip.
    cbn [snd]. now rewrite Htipidx.
  - intros p h now'.
    assert (Hst1 : reachable (exec (NewTransaction sender recipient amount) st))
      by (now apply reachable_exec).
    cbn [exec] in Hst1.
    destruct (add_block_effect p h now' _ (reachable_well_formed _ Hst1)
                (reachable_chain_nonempty _ Hst1))
      as (b & st2 & _ & Hadd & _ & _ & Hidx & _).
    exists b, st2. split; [exact Hadd|].
    rewrite Hidx. now rewrite new_transaction_state.
Qed.

Lemma new_transaction_announces_next_index_witness :
  exists st1,
    new_transaction "A" "B" 10
      (run [AddBlock 7 None (Float "1.0"); RegisterNode "http://10.0.0.5:5000"]
           (snd (init (Float "0.0")))) =
      (Ok (Z.of_nat (length (chain
         (run [AddBlock 7 None (Float "1.0");
               RegisterNode "http://10.0.0.5:5000"]
              (snd (init (Float "0.0")))))) + 1), st1) /\
    forall p h now',
      exists b st2,
        add_block p h now' st1 = (Ok b, st2) /\
        index b =
          Z.of_nat (length (chain
            (run [AddBlock 7 None (Float "1.0");
                  RegisterNode "http://10.0.0.5:5000"]
                 (snd (init (Float "0.0")))))) + 1.
Proof.
  apply (proj2 (new_transaction_announces_next_index (Float "0.0")
                  [AddBlock 7 None (Float "1.0");
                   RegisterNode "http://10.0.0.5:5000"] "A" "B" 10
                  ltac:(reflexivity))).
Defined.

Lemma resolve_conflicts_frame net order st :
  well_formed st ->
  pool (snd (resolve_conflicts net order st)) = pool st /\
  nodes (snd (resolve_conflicts net order st)) = nodes st.
Proof.
  intros [Hct _].
  destruct (resolve_conflicts_state net order st)
    as [->|(c & bs & h & l & _ & Hstore & ->)]; [split; reflexivity|].
  destruct (store_chain_spec _ _ _ _ _ _ Hstore) as (_ & _ & Hold & _).
  split; [|reflexivity].
  unfold pool, list_at. cbn [heap current_transactions].
  now rewrite Hold.
Qed.

(** X7.  Consensus resolution touches nothing but the chain: whether it
    replaces the chain, leaves it or raises, the pending pool and the
    peer set are afterwards what they were; transfers waiting in the pool
    stay there even when the chain taken from the peer already holds
    them. *)
Theorem resolve_conflicts_keeps_pool_and_peers (net : network)
    (order : list string) (st : State) :
  reachable st ->
  pool (snd (resolve_conflicts net order st)) = pool st /\
  nodes (snd (resolve_conflicts net order st)) = nodes st /\
  (fst (resolve_conflicts net order st) <> Ok true ->
   snd (resolve_conflicts net order st) = st).
Proof.
  intros Hst.
  destruct (resolve_conflicts_frame net order st (reachable_well_formed st Hst))
    as [Hpool Hnodes].
  split_conj; [exact Hpool | exact Hnodes |].
  unfold resolve_conflicts.
  destruct (resolve_loop net order None (Z.of_nat (length (chain st))))
    as [nc|e]; [|reflexivity].
  destruct (truthy_opt_list nc); [|reflexivity].
  destruct (store_chain _ _ _) as [[bs h] l]. cbn [fst]. congruence.
Qed.

Lemma resolve_conflicts_keeps_pool_and_peers_witness :
  pool (snd (resolve_conflicts net_short_chain [peer_a]
               (exec (NewTransaction "A" "B" 10) node_two_blocks))) =
    pool (exec (NewTransaction "A" "B" 10) node_two_blocks) /\
  nodes (snd (resolve_conflicts net_short_chain [peer_a]
                (exec (NewTransaction "A" "B" 10) node_two_blocks))) =
    nodes (exec (NewTransaction "A" "B" 10) node_two_blocks) /\
  (fst (resolve_conflicts net_short_chain [peer_a]
          (exec (NewTransaction "A" "B" 10) node_two_blocks)) <> Ok true ->
   snd (resolve_conflicts net_short_chain [peer_a]
          (exec (NewTransaction "A" "B" 10) node_two_blocks)) =
   exec (NewTransaction "A" "B" 10) node_two_blocks).
Proof.
  apply resolve_conflicts_keeps_pool_and_peers. unfold node_two_blocks.
  repeat (apply reachable_exec; [|exact I]). apply reachable_init.
Defined.

Lemma register_node_nodes address st :
  nodes (snd (register_node address st)) = nodes st \/
  exists node, nodes (snd (register_node address st)) = {[ node ]} ∪ nodes st.
Proof.
  pose proof (register_node_cases address st) as H.
  destruct (Url.urlparse address) as [parsed|e]; [|left; now rewrite H].
  destruct (truthy_str (Url.netloc parsed)); [right; eexists; now rewrite H|].
  destruct (truthy_str (Url.path parsed)); [right; eexists|left]; now rewrite H.
Qed.

Lemma exec_nodes c st :
  nodes (exec c st) = nodes st \/
  exists address node,
    c = RegisterNode address /\ nodes (exec c st) = {[ node ]} ∪ nodes st.
Proof.
  destruct c as [s r a|p h now|a|net order]; cbn [exec].
  - left. now rewrite new_transaction_state.
  - left. destruct (add_block_state p h now st) as [->|(b & -> & _)];
      reflexivity.
  - destruct (register_node_nodes a st) as [->|[node Hnode]];
      [now left | right; eauto].
  - left. destruct (resolve_conflicts_state net order st)
      as [->|(c & bs & h & l & _ & _ & ->)]; reflexivity.
Qed.

(** X8.  A peer once registered stays: over any calls the peer set only
    grows, and only [register_node] makes it grow, by one address at
    most. *)
Theorem peers_only_grow :
  (forall cs st, nodes st ⊆ nodes (run cs st)) /\
  (forall c st,
     nodes (exec c st) = nodes st \/
     exists address node,
       c = RegisterNode address /\ nodes (exec c st) = {[ node ]} ∪ nodes st).
Proof.
  split; [|exact exec_nodes].
  intros cs. induction cs as [|c cs IH]; intros st; [reflexivity|].
  change (run (c :: cs) st) with (run cs (exec c st)).
  etrans; [|apply IH].
  destruct (exec_nodes c st) as [->|(a & node & _ & ->)];
    [reflexivity | apply union_subseteq_r].
Qed.

(** ** add_block checks nothing *)

(** X9.  [add_block] appends whatever it is given.  From any state a
    node reaches, a proof that does not validate against the last block,
    or a non-empty [previous_hash] that is not the digest of the last
    block, leaves the node with a chain its own [valid_chain] answers
    false on. *)
Theorem add_block_unchecked (st : State) (p : Z) (h : option string)
    (now : float) (tip : Block loc) :
  reachable st ->
  last (chain st) = Some tip ->
  validate (proof tip) p (hash (load st tip)) = false \/
  (truthy_opt_str h = true /\ h <> Some (hash (load st tip))) ->
  valid_chain (chain_data (snd (add_block p h now st))) = Ok false.
Proof.
  intros Hst Htip Hbad.
  destruct (add_block_effect p h now st (reachable_well_formed st Hst)
              (reachable_chain_nonempty st Hst))
    as (b & st' & tip' & -> & Htip' & Hchain & _ & Hproof & Hprev & _ & _ & _ & Hold).
  rewrite Htip in Htip'. injection Htip' as <-. cbn [snd].
  rewrite (chain_data_snoc st st' b Hchain Hold).
  rewrite (valid_chain_snoc _ _ _ (last_chain_data st tip Htip)).
  assert (Hlink : link_ok (load st tip) (load st' b) = false).
  { unfold link_ok. cbn [load previous_hash proof]. rewrite Hproof, Hprev.
    apply andb_false_iff. destruct Hbad as [Hv|[Ht Hne]]; [now right|left].
    rewrite Ht. apply String.eqb_neq. intros Heq. apply Hne.
    destruct h as [s|]; [|discriminate]. cbn in Heq. now rewrite Heq. }
  rewrite Hlink.
  destruct (valid_chain (chain_data st)) as [ok|e] eqn:Hvalid;
    [now rewrite andb_false_r|].
  apply valid_chain_raises in Hvalid. unfold chain_data in Hvalid.
  apply fmap_nil_inv in Hvalid.
  now apply reachable_chain_nonempty in Hst.
Qed.

Lemma add_block_unchecked_witness :
  valid_chain
    (chain_data (snd (add_block 7 None (Float "1.0") node0))) = Ok false.
Proof.
  apply (add_block_unchecked node0 7 None (Float "1.0")
           (MkBlock 1 (Float "0.0") 0%nat 42 "secret")).
  - apply reachable_init.
  - reflexivity.
  - left. vm_compute. reflexivity.
Defined.

(** ** The mine route *)

Lemma new_transaction_ok sender recipient amount st tip :
  last (chain st) = Some tip ->
  new_transaction sender recipient amount st =
  (Ok (index tip + 1), snd (new_transaction sender recipient amount st)).
Proof.
  intros Htip. unfold new_transaction, last_block. cbn [chain].
  now rewrite Htip.
Qed.

Lemma load_new_transaction sender recipient amount st b :
  well_formed st -> b ∈ chain st ->
  load (snd (new_transaction sender recipient amount st)) b = load st b.
Proof.
  intros [_ Hblocks] Hb. destruct (Hblocks b Hb) as [_ Hne].
  rewrite new_transaction_state. unfold load, list_at. cbn [heap].
  now rewrite lookup_insert_ne.
Qed.

Lemma add_block_timestamp p h now st b st' :
  add_block p h now st = (Ok b, st') -> timestamp b = now.
Proof.
  unfold add_block. destruct (if truthy_opt_str h then _ else _);
    [|discriminate]. now intros [= <- _].
Qed.

Lemma mine_effect fuel node_identifier now st tip q :
  well_formed st -> last (chain st) = Some tip ->
  proof_of_work fuel (load st tip) = Some q ->
  exists b st',
    Routes.mine fuel node_identifier now st =
      Some (Ok (Routes.mined_of st' b, 200), st') /\
    st' = exec (AddBlock q (Some (hash (load st tip))) now)
               (exec (NewTransaction "0" node_identifier 20) st) /\
    chain st' = (chain st ++ [b])%list /\
    index b = Z.of_nat (length (chain st)) + 1 /\
    timestamp b = now /\
    proof b = q /\
    previous_hash b = hash (load st tip) /\
    transactions (load st' b) =
      (pool st ++ [Transaction "0" node_identifier 20])%list /\
    pool st' = [] /\
    nodes st' = nodes st /\
    forall old, old ∈ chain st -> load st' old = load st old.
Proof.
  intros Hwf Htip Hpow.
  assert (Hin : tip ∈ chain st) by (now apply last_Some_elem_of).
  pose proof (exec_well_formed (NewTransaction "0" node_identifier 20) st Hwf)
    as Hwf1. cbn [exec] in Hwf1.
  set (st1 := snd (new_transaction "0" node_identifier 20 st)) in *.
  assert (Hchain1 : chain st1 = chain st)
    by (subst st1; now rewrite new_transaction_state).
  assert (Hne1 : chain st1 <> []).
  { rewrite Hchain1. intros Hnil. now rewrite Hnil in Htip. }
  destruct (add_block_effect q (Some (hash (load st tip))) now st1 Hwf1 Hne1)
    as (b & st' & tip1 & Hadd & Htip1 & Hchain & Hidx & Hproof & Hprev & Htxs
        & Hpool & Hnodes & Hold).
  rewrite Hchain1, Htip in Htip1. injection Htip1 as <-.
  assert (Hload1 : load st1 tip = load st tip)
    by (subst st1; now apply load_new_transaction).
  exists b, st'. split_conj.
  - unfold Routes.mine, last_block. rewrite Htip, Hpow.
    rewrite (new_transaction_ok "0" node_identifier 20 st tip Htip).
    fold st1. rewrite Hload1, Hadd. reflexivity.
  - cbn [exec]. fold st1. now rewrite Hadd.
  - now rewrite Hchain, Hchain1.
  - now rewrite Hidx, Hchain1.
  - exact (add_block_timestamp _ _ _ _ _ _ Hadd).
  - exact Hproof.
  - rewrite Hprev, Hload1. cbn [truthy_opt_str default from_option id].
    now destruct (truthy_str (hash (load st tip))).
  - rewrite Htxs. subst st1. apply pool_new_transaction.
  - exact Hpool.
  - rewrite Hnodes. subst st1. now rewrite new_transaction_state.
  - intros old Hold'. rewrite Hold by (now rewrite Hchain1).
    subst st1. now apply load_new_transaction.
Qed.

Lemma mine_cases fuel node_identifier now st out st' :
  well_formed st ->
  Routes.mine fuel node_identifier now st = Some (out, st') ->
  (chain st = [] /\ st' = st) \/
  exists tip q,
    last (chain st) = Some tip /\
    proof_of_work fuel (load st tip) = Some q.
Proof.
  intros Hwf Hmine.
  destruct (last (chain st)) as [tip|] eqn:Htip.
  - right. exists tip.
    destruct (proof_of_work fuel (load st tip)) as [q|] eqn:Hpow; [eauto|].
    unfold Routes.mine, last_block in Hmine. now rewrite Htip, Hpow in Hmine.
  - left. unfold Routes.mine, last_block in Hmine. rewrite Htip in Hmine.
    injection Hmine as _ <-. split; [now apply last_None | reflexivity].
Qed.

Lemma proof_of_work_sound fuel last_block q :
  proof_of_work fuel last_block = Some q ->
  0 <= q /\ validate (proof last_block) q (hash last_block) = true.
Proof.
  intros H. apply proof_of_work_loop_sound in H as (Hq & Hok & _). now split.
Qed.

(** X10.  When some non-negative proof validates against the last block,
    [mine], given enough loop tests, answers with status 200 and appends
    one block: its index is [len(chain) + 1], its proof the smallest one
    that validates, its [previous_hash] the digest of the block that was
    last, its transfers the pool followed by the reward of 20 from ["0"]
    to the node; the block links to its predecessor as [valid_chain]
    requires, and the pool is empty afterwards. *)
Theorem mine_appends_linked_block (st : State) (node_identifier : string)
    (now : float) (tip : Block loc) (p : Z) :
  reachable st ->
  last (chain st) = Some tip ->
  0 <= p ->
  validate (proof tip) p (hash (load st tip)) = true ->
  exists q,
    0 <= q <= p /\
    (forall r, 0 <= r < q ->
       validate (proof tip) r (hash (load st tip)) = false) /\
    forall fuel, (Z.to_nat q < fuel)%nat ->
      exists b st',
        Routes.mine fuel node_identifier now st =
          Some (Ok (Routes.MkMined "New block was mined!"
                      (Z.of_nat (length (chain st)) + 1) q
                      (pool st ++ [Transaction "0" node_identifier 20])%list
                      (hash (load st tip)), 200), st') /\
        chain st' = (chain st ++ [b])%list /\
        load st' b =
          MkBlock (Z.of_nat (length (chain st)) + 1) now
                  (pool st ++ [Transaction "0" node_identifier 20])%list q
                  (hash (load st tip)) /\
        link_ok (load st tip) (load st' b) = true /\
        pool st' = [].
Proof.
  intros Hst Htip Hp Hok.
  destruct (proof_of_work_loop_finds (proof (load st tip)) (hash (load st tip))
              (S (Z.to_nat p)) 0 p Hp Hok ltac:(lia)) as [q Hq].
  pose proof (proof_of_work_loop_sound _ _ _ _ _ Hq) as (Hq0 & Hqok & Hqmin).
  exists q. split_conj.
  - lia.
  - destruct (Z_le_gt_dec q p) as [Hle|Hgt]; [exact Hle|].
    cbn [load proof] in Hqmin. rewrite (Hqmin p) in Hok by lia. discriminate.
  - exact Hqmin.
  - intros fuel Hfuel.
    assert (Hpow : proof_of_work fuel (load st tip) = Some q).
    { apply proof_of_work_loop_complete; try assumption. lia. }
    destruct (mine_effect fuel node_identifier now st tip q
                (reachable_well_formed st Hst) Htip Hpow)
      as (b & st' & Hmine & Hst' & Hchain & Hidx & Htime & Hproof & Hprev
          & Htxs & Hpool & _ & _).
    assert (Hload : load st' b =
              MkBlock (Z.of_nat (length (chain st)) + 1) now
                      (pool st ++ [Transaction "0" node_identifier 20])%list q
                      (hash (load st tip))).
    { unfold load. rewrite Hidx, Hproof, Hprev, Htime. f_equal. exact Htxs. }
    exists b, st'. split_conj.
    + rewrite Hmine. unfold Routes.mined_of.
      rewrite Hidx, Hproof, Hprev. cbn [load transactions] in Htxs.
      now rewrite Htxs.
    + exact Hchain.
    + exact Hload.
    + rewrite Hload. apply link_ok_true. cbn [previous_hash proof].
      split; [reflexivity | exact Hqok].
    + exact Hpool.
Qed.

Lemma mine_appends_linked_block_witness :
  exists q,
    0 <= q <= 29008 /\
    (forall r, 0 <= r < q ->
       validate 42 r (hash (load node0 (MkBlock 1 (Float "0.0") 0%nat 42 "secret")))
       = false) /\
    forall fuel, (Z.to_nat q < fuel)%nat ->
      exists b st',
        Routes.mine fuel "node" (Float "1.0") node0 =
          Some (Ok (Routes.MkMined "New block was mined!"
                      (Z.of_nat (length (chain node0)) + 1) q
                      (pool node0 ++ [Transaction "0" "node" 20])%list
                      (hash (load node0 (MkBlock 1 (Float "0.0") 0%nat 42 "secret"))),
                    200), st') /\
        chain st' = (chain node0 ++ [b])%list /\
        load st' b =
          MkBlock (Z.of_nat (length (chain node0)) + 1) (Float "1.0")
                  (pool node0 ++ [Transaction "0" "node" 20])%list q
                  (hash (load node0 (MkBlock 1 (Float "0.0") 0%nat 42 "secret"))) /\
        link_ok (load node0 (MkBlock 1 (Float "0.0") 0%nat 42 "secret"))
                (load st' b) = true /\
        pool st' = [].
Proof.
  apply (mine_appends_linked_block node0 "node" (Float "1.0")
           (MkBlock 1 (Float "0.0") 0%nat 42 "secret") 29008).
  - apply reachable_init.
  - reflexivity.
  - lia.
  - vm_compute. reflexivity.
Defined.

(** ** The chain of a node stays valid *)

Lemma resolve_loop_valid net order :
  forall new_chain m new_chain',
    resolve_loop net order new_chain m = Ok new_chain' ->
    (forall c, new_chain = Some c -> valid_chain c = Ok true) ->
    forall c, new_chain' = Some c -> valid_chain c = Ok true.
Proof.
  induction order as [|node order IH]; intros nc m nc' Hloop Hnc.
  - cbn [resolve_loop] in Hloop. injection Hloop as <-. exact Hnc.
  - rewrite resolve_loop_cons in Hloop.
    destruct (status_code (net (chain_url node)) =? 200); [|eauto].
    destruct (json_length (net (chain_url node)) >? m); [|eauto].
    destruct (valid_chain (json_chain (net (chain_url node))))
      as [[|]|e] eqn:Hvalid; [|eauto|discriminate].
    apply (IH _ _ _ Hloop). now intros c [= <-].
Qed.

Lemma resolve_conflicts_chain_valid net order st :
  valid_chain (chain_data st) = Ok true ->
  valid_chain (chain_data (snd (resolve_conflicts net order st))) = Ok true.
Proof.
  intros Hvalid. unfold resolve_conflicts.
  destruct (resolve_loop net order None (Z.of_nat (length (chain st))))
    as [nc|e] eqn:Hloop; [|exact Hvalid].
  destruct nc as [[|x c]|]; cbn [truthy_opt_list]; try exact Hvalid.
  cbn [default from_option id].
  destruct (store_chain (x :: c) (heap st) (next_loc st)) as [[bs h] l] eqn:Hs.
  cbn [snd]. unfold chain_data. cbn [chain].
  rewrite (store_chain_load _ _ _ _ _ _
             (MkState h l (current_transactions st) bs (nodes st)) Hs eq_refl).
  apply (resolve_loop_valid _ _ _ _ _ Hloop); [discriminate | reflexivity].
Qed.

Lemma chain_data_register_node address st :
  chain_data (snd (register_node address st)) = chain_data st.
Proof. now destruct (register_node_state address st) as [ns ->]. Qed.

Lemma served_reachable st : served st -> reachable st.
Proof.
  induction 1 as [now|c st _ IH Hadm _|fuel id now st out st' _ IH Hmine].
  - apply reachable_init.
  - now apply reachable_exec.
  - pose proof (reachable_well_formed st IH) as Hwf.
    destruct (mine_cases _ _ _ _ _ _ Hwf Hmine)
      as [[_ ->]|(tip & q & Htip & Hpow)]; [exact IH|].
    destruct (mine_effect fuel id now st tip q Hwf Htip Hpow)
      as (b & st2 & Hmine2 & -> & _).
    rewrite Hmine2 in Hmine. injection Hmine as _ <-.
    apply (reachable_exec (AddBlock q (Some (hash (load st tip))) now));
      [|exact I].
    apply (reachable_exec (NewTransaction "0" id 20)); [exact IH | exact I].
Qed.

Lemma served_valid st : served st -> valid_chain (chain_data st) = Ok true.
Proof.
  induction 1 as [now|c st Hst IH Hadm Hc|fuel id now st out st' Hst IH Hmine].
  - rewrite init_state. reflexivity.
  - pose proof (reachable_well_formed st (served_reachable st Hst)) as Hwf.
    destruct c as [s r a|p h now|a|net order]; try discriminate; cbn [exec].
    + now rewrite chain_data_new_transaction.
    + now rewrite chain_data_register_node.
    + now apply resolve_conflicts_chain_valid.
  - pose proof (reachable_well_formed st (served_reachable st Hst)) as Hwf.
    destruct (mine_cases _ _ _ _ _ _ Hwf Hmine)
      as [[_ ->]|(tip & q & Htip & Hpow)]; [exact IH|].
    destruct (mine_effect fuel id now st tip q Hwf Htip Hpow)
      as (b & st2 & Hmine2 & _ & Hchain & _ & _ & Hproof & Hprev & _ & _ & _
          & Hold).
    rewrite Hmine2 in Hmine. injection Hmine as _ <-.
    rewrite (chain_data_snoc st st2 b Hchain Hold).
    rewrite (valid_chain_snoc _ _ _ (last_chain_data st tip Htip)), IH.
    cbn [andb]. f_equal. apply link_ok_true. cbn [load previous_hash proof].
    rewrite Hproof, Hprev. split; [reflexivity|].
    now apply proof_of_work_sound in Hpow.
Qed.



(** ** Peers that report the length of what they send *)

Lemma resolve_loop_guarded net order :
  forall new_chain m,
  (forall node, node ∈ order ->
     status_code (net (chain_url node)) = 200 ->
     json_length (net (chain_url node)) > m ->
     json_chain (net (chain_url node)) <> []) ->
  exists new_chain',
    resolve_loop net order new_chain m = Ok new_chain' /\
    ((new_chain' = new_chain /\ forall node, node ∈ order -> ~ eligible net m node) \/
     (exists node,
        node ∈ order /\ eligible net m node /\
        new_chain' = Some (json_chain (net (chain_url node))) /\
        forall other, other ∈ order -> eligible net m other ->
          json_length (net (chain_url other)) <=
          json_length (net (chain_url node)))).
Proof.
  induction order as [|node order IH]; intros new_chain m Hguard.
  - exists new_chain. split; [reflexivity|]. left. split; [reflexivity|].
    intros node Hin. now apply elem_of_nil in Hin.
  - assert (Hguard' : forall m', m <= m' -> forall n, n ∈ order ->
              status_code (net (chain_url n)) = 200 ->
              json_length (net (chain_url n)) > m' ->
              json_chain (net (chain_url n)) <> []).
    { intros m' Hm n Hn Hs Hl. apply Hguard; [|exact Hs|lia].
      apply elem_of_cons. now right. }
    rewrite resolve_loop_cons.
    destruct (status_code (net (chain_url node)) =? 200) eqn:Hstatus;
      [destruct (json_length (net (chain_url node)) >? m) eqn:Hlen;
       [destruct (valid_chain (json_chain (net (chain_url node))))
          as [[|]|e] eqn:Hvalid|]|].
    + apply Z.eqb_eq in Hstatus. rewrite Z.gtb_ltb in Hlen.
      apply Z.ltb_lt in Hlen.
      assert (Hnode : eligible net m node)
        by (split_eligible; [assumption|lia|assumption]).
      destruct (IH (Some (json_chain (net (chain_url node))))
                  (json_length (net (chain_url node)))
                  (Hguard' (json_length (net (chain_url node))) ltac:(lia)))
        as (nc & Hloop & [[-> Hnone]|Hsome]).
      * eexists. split; [exact Hloop|]. right. exists node. split_conj.
        -- apply elem_of_cons. now left.
        -- exact Hnode.
        -- reflexivity.
        -- intros other [->|Ho]%elem_of_cons Helo; [lia|].
           destruct Helo as (Hs & Hl & Hv).
           destruct (Z_le_gt_dec (json_length (net (chain_url other)))
                       (json_length (net (chain_url node)))) as [Hle|Hgt];
             [exact Hle|].
           exfalso. apply (Hnone other Ho). split_eligible; assumption.
      * destruct Hsome as (n & Hn & (Hs & Hl & Hv) & -> & Hmax).
        eexists. split; [exact Hloop|]. right. exists n. split_conj.
        -- apply elem_of_cons. now right.
        -- split_eligible; [assumption | lia | assumption].
        -- reflexivity.
        -- intros other [->|Ho]%elem_of_cons Helo; [lia|].
           destruct Helo as (Hs' & Hl' & Hv').
           destruct (Z_le_gt_dec (json_length (net (chain_url other)))
                       (json_length (net (chain_url node)))) as [Hle|Hgt];
             [lia|].
           apply Hmax; [exact Ho|]. split_eligible; assumption.
    + destruct (IH new_chain m (Hguard' m ltac:(lia)))
        as (nc & Hloop & Hcases).
      exists nc. split; [exact Hloop|].
      destruct Hcases as [[-> Hnone]|(n & Hn & Hel & -> & Hmax)].
      * left. split; [reflexivity|].
        intros n [->|Hn]%elem_of_cons; [|now apply Hnone].
        intros (_ & _ & Hv). congruence.
      * right. exists n. split_conj; [apply elem_of_cons; now right | exact Hel
                                     | reflexivity |].
        intros other [->|Ho]%elem_of_cons Helo; [|now apply Hmax].
        destruct Helo as (_ & _ & Hv). congruence.
    + exfalso. apply valid_chain_raises in Hvalid.
      apply Z.eqb_eq in Hstatus. rewrite Z.gtb_ltb in Hlen.
      apply Z.ltb_lt in Hlen.
      apply (Hguard node); [apply elem_of_cons; now left | exact Hstatus | lia
                           | exact Hvalid].
    + destruct (IH new_chain m (Hguard' m ltac:(lia)))
        as (nc & Hloop & Hcases).
      exists nc. split; [exact Hloop|].
      destruct Hcases as [[-> Hnone]|(n & Hn & Hel & -> & Hmax)].
      * left. split; [reflexivity|].
        intros n [->|Hn]%elem_of_cons; [|now apply Hnone].
        intros (_ & Hl & _). rewrite Z.gtb_ltb in Hlen.
        apply Z.ltb_ge in Hlen. lia.
      * right. exists n. split_conj; [apply elem_of_cons; now right | exact Hel
                                     | reflexivity |].
        intros other [->|Ho]%elem_of_cons Helo; [|now apply Hmax].
        destruct Helo as (_ & Hl & _). rewrite Z.gtb_ltb in Hlen.
        apply Z.ltb_ge in Hlen. lia.
    + destruct (IH new_chain m (Hguard' m ltac:(lia)))
        as (nc & Hloop & Hcases).
      exists nc. split; [exact Hloop|].
      destruct Hcases as [[-> Hnone]|(n & Hn & Hel & -> & Hmax)].
      * left. split; [reflexivity|].
        intros n [->|Hn]%elem_of_cons; [|now apply Hnone].
        intros (Hs & _). apply Z.eqb_neq in Hstatus. contradiction.
      * right. exists n. split_conj; [apply elem_of_cons; now right | exact Hel
                                     | reflexivity |].
        intros other [->|Ho]%elem_of_cons Helo; [|now apply Hmax].
        destruct Helo as (Hs & _). apply Z.eqb_neq in Hstatus. contradiction.
Qed.

Lemma resolve_conflicts_true_lengths_cases net order st :
  reports_true_length net order ->
  (resolve_conflicts net order st = (Ok false, st) /\
   forall node, node ∈ order ->
     ~ eligible net (Z.of_nat (length (chain st))) node) \/
  (exists node st',
     resolve_conflicts net order st = (Ok true, st') /\
     node ∈ order /\
     eligible net (Z.of_nat (length (chain st))) node /\
     (forall other, other ∈ order ->
        eligible net (Z.of_nat (length (chain st))) other ->
        json_length (net (chain_url other)) <=
        json_length (net (chain_url node))) /\
     chain_data st' = json_chain (net (chain_url node)) /\
     Z.of_nat (length (chain st')) = json_length (net (chain_url node)) /\
     nodes st' = nodes st).
Proof.
  intros Htrue. unfold resolve_conflicts.
  destruct (resolve_loop_guarded net order None (Z.of_nat (length (chain st))))
    as (nc & -> & [[-> Hnone]|(node & Hin & Hel & -> & Hmax)]).
  { intros node Hin _ Hlen Hnil. rewrite (Htrue node Hin), Hnil in Hlen.
    cbn [length] in Hlen. lia. }
  - left. split; [reflexivity | exact Hnone].
  - right. pose proof Hel as (_ & _ & Hvalid).
    destruct (json_chain (net (chain_url node))) as [|x c] eqn:Hc;
      [discriminate|].
    cbn [truthy_opt_list default from_option id].
    destruct (store_chain (x :: c) (heap st) (next_loc st))
      as [[bs h] l] eqn:Hstore.
    exists node. eexists. split; [reflexivity|].
    split_conj; try assumption; try reflexivity.
    + unfold chain_data. cbn [chain]. rewrite Hc.
      now apply (store_chain_load _ _ _ _ _ _ _ Hstore).
    + cbn [chain].
      destruct (store_chain_spec _ _ _ _ _ _ Hstore) as (_ & -> & _).
      now rewrite (Htrue node Hin), Hc.
Qed.

Lemma full_chain_true_length (A : State) (order : list string) (net : network) :
  (forall node, node ∈ order -> net (chain_url node) = Routes.full_chain A) ->
  reports_true_length net order.
Proof.
  intros Hnet node Hin. rewrite (Hnet node Hin).
  unfold Routes.full_chain, chain_data. cbn [json_length json_chain].
  now rewrite length_map.
Qed.



(** X13.  With such peers a resolution that replaced the chain is
    final against the same answers: asked again at once,
    [resolve_conflicts] returns [False] and changes nothing. *)
Theorem resolve_conflicts_settles (net : network) (order : list string)
    (st st' : State) :
  reports_true_length net order ->
  resolve_conflicts net order st = (Ok true, st') ->
  resolve_conflicts net order st' = (Ok false, st').
Proof.
  intros Htrue Hres.
  destruct (resolve_conflicts_true_lengths_cases net order st Htrue)
    as [[Hres' _]|(node & st1 & Hres' & Hin & Hel & Hmax & _ & Hlen & _)];
    [congruence|].
  rewrite Hres in Hres'. injection Hres' as <-.
  destruct (resolve_conflicts_true_lengths_cases net order st' Htrue)
    as [[Hagain _]|(node2 & st2 & _ & Hin2 & Hel2 & _)]; [exact Hagain|].
  exfalso. destruct Hel as (_ & Hl & _). destruct Hel2 as (Hs2 & Hl2 & Hv2).
  assert (Hel2 : eligible net (Z.of_nat (length (chain st))) node2)
    by (split_eligible; [assumption | lia | assumption]).
  pose proof (Hmax node2 Hin2 Hel2). lia.
Qed.

Lemma resolve_conflicts_settles_witness :
  resolve_conflicts (fun _ => MkResponse 200 2 [genesis0; mined1]) [peer_a]
    (snd (resolve_conflicts (fun _ => MkResponse 200 2 [genesis0; mined1])
            [peer_a] node0)) =
  (Ok false,
   snd (resolve_conflicts (fun _ => MkResponse 200 2 [genesis0; mined1])
          [peer_a] node0)).
Proof.
  apply (resolve_conflicts_settles _ _ node0).
  - intros node _. reflexivity.
  - vm_compute. reflexivity.
Defined.

(** X14.  Two nodes.  [B] asks peers that all answer with the [full_chain]
    of a node [A] whose blocks come from the constructor, [mine] and
    consensus.  If [A] has more blocks than [B], [resolve_conflicts]
    returns [True] and [B] holds the chain of [A]; if not, it returns
    [False] and [B] is unchanged. *)
Theorem resolve_conflicts_follows_longer_node (A B : State) (net : network)
    (order : list string) :
  served A ->
  order <> [] ->
  (forall node, node ∈ order -> net (chain_url node) = Routes.full_chain A) ->
  ((length (chain B) < length (chain A))%nat ->
   exists B',
     resolve_conflicts net order B = (Ok true, B') /\
     chain_data B' = chain_data A /\ nodes B' = nodes B) /\
  ((length (chain A) <= length (chain B))%nat ->
   resolve_conflicts net order B = (Ok false, B)).
Proof.
  intros HA Horder Hnet.
  pose proof (full_chain_true_length A order net Hnet) as Htrue.
  assert (Hel : forall node, node ∈ order ->
            (eligible net (Z.of_nat (length (chain B))) node <->
             (length (chain B) < length (chain A))%nat)).
  { intros node Hin. unfold eligible. rewrite (Hnet node Hin).
    unfold Routes.full_chain. cbn [status_code json_length json_chain].
    rewrite (served_valid A HA). split; [intros (_ & Hl & _); lia|].
    intros Hl. split_conj; [reflexivity | lia | reflexivity]. }
  destruct (resolve_conflicts_true_lengths_cases net order B Htrue)
    as [[Hres Hnone]|(node & B' & Hres & Hin & Helig & _ & Hdata & _ & Hnodes)].
  - split; [|now intros _].
    intros Hl. destruct order as [|node order]; [congruence|]. exfalso.
    assert (Hin : node ∈ node :: order) by (apply elem_of_cons; now left).
    apply (Hnone node Hin). now apply Hel.
  - split.
    + intros _. exists B'. split_conj; [exact Hres | | exact Hnodes].
      rewrite Hdata, (Hnet node Hin). reflexivity.
    + intros Hle. apply (Hel node Hin) in Helig. lia.
Qed.

Lemma resolve_conflicts_follows_longer_node_witness :
  resolve_conflicts (fun _ => Routes.full_chain node0) [peer_a] node_two_blocks
  = (Ok false, node_two_blocks).
Proof.
  apply (resolve_conflicts_follows_longer_node node0 node_two_blocks
           (fun _ => Routes.full_chain node0) [peer_a]).
  - apply served_init.
  - discriminate.
  - reflexivity.
  - vm_compute. lia.
Defined.

(** ** Addresses that register_node stores whole *)

Lemma all_chars_forall p s :
  Url.all_chars p s = true ->
  forall q, (forall c, p c = true -> q c = false) -> Url.any_char q s = false.
Proof.
  intros Hall q Hpq. induction s as [|c s IH]; [reflexivity|].
  cbn [Url.all_chars] in Hall. apply andb_true_iff in Hall as [Hc Hs].
  cbn [Url.any_char]. now rewrite (Hpq c Hc), IH.
Qed.

Lemma all_chars_weaken p q s :
  Url.all_chars p s = true -> (forall c, p c = true -> q c = true) ->
  Url.all_chars q s = true.
Proof.
  intros Hall Hpq. induction s as [|c s IH]; [reflexivity|].
  cbn [Url.all_chars] in Hall. apply andb_true_iff in Hall as [Hc Hs].
  cbn [Url.all_chars]. now rewrite (Hpq c Hc), IH.
Qed.

Lemma filter_chars_all p s :
  Url.all_chars p s = true -> Url.filter_chars p s = s.
Proof.
  induction s as [|c s IH]; [reflexivity|]. cbn [Url.all_chars Url.filter_chars].
  intros [-> Hs]%andb_true_iff. now rewrite IH.
Qed.

Lemma break_none p s : Url.any_char p s = false -> Url.break p s = (s, "").
Proof.
  induction s as [|c s IH]; [reflexivity|]. cbn [Url.any_char Url.break].
  intros [-> Hs]%orb_false_iff. now rewrite IH.
Qed.


Lemma bare_char_spec c :
  bare_char c = true ->
  Url.is_char 63 c = false /\ Url.is_char 35 c = false /\
  Url.is_char 59 c = false /\ Url.is_char 9 c = false /\
  Url.is_char 13 c = false /\ Url.is_char 10 c = false.
Proof.
  unfold bare_char. rewrite negb_true_iff, !orb_false_iff. tauto.
Qed.




Lemma split_scheme_not_alpha c0 rest :
  Url.is_alpha c0 = false ->
  Url.split_scheme (String c0 rest) = ("", String c0 rest).
Proof.
  intros Halpha. unfold Url.split_scheme. cbn [Url.break].
  destruct (Url.is_char 58 c0); [reflexivity|].
  destruct (Url.break (Url.is_char 58) rest) as [before after].
  destruct after; [reflexivity|]. now rewrite Halpha.
Qed.

Lemma urlparse_bare c0 rest :
  Url.is_digit c0 = true ->
  Url.all_chars bare_char (String c0 rest) = true ->
  Url.urlparse (String c0 rest) =
  Ok (Url.MkParseResult "" "" (String c0 rest) "" "" "").
Proof.
  intros Hdigit Hbare.
  assert (Hrange : 48 <= code c0 <= 57).
  { unfold Url.is_digit in Hdigit. apply andb_true_iff in Hdigit as [H1 H2].
    apply Z.leb_le in H1, H2. lia. }
  assert (Hstrip : Url.lstrip_c0 (String c0 rest) = String c0 rest).
  { cbn [Url.lstrip_c0]. destruct (Z.leb_spec (code c0) 32); [lia|reflexivity]. }
  assert (Hsafe : Url.remove_unsafe (String c0 rest) = String c0 rest).
  { apply filter_chars_all. apply (all_chars_weaken _ _ _ Hbare). intros c Hc.
    apply bare_char_spec in Hc as (_ & _ & _ & -> & -> & ->). reflexivity. }
  assert (Halpha : Url.is_alpha c0 = false).
  { unfold Url.is_alpha. apply orb_false_iff. split; apply andb_false_iff.
    - left. apply Z.leb_gt. lia.
    - left. apply Z.leb_gt. lia. }
  assert (Hslash : Url.is_char 47 c0 = false).
  { unfold Url.is_char. apply Z.eqb_neq. lia. }
  assert (Hnone : forall n, n = 35 \/ n = 63 \/ n = 59 ->
            Url.any_char (Url.is_char n) (String c0 rest) = false).
  { intros n Hn. apply (all_chars_forall _ _ Hbare). intros c Hc.
    apply bare_char_spec in Hc as (H63 & H35 & H59 & _).
    destruct Hn as [->|[->| ->]]; assumption. }
  unfold Url.urlparse. rewrite Hstrip, Hsafe, (split_scheme_not_alpha _ _ Halpha).
  cbv beta iota.
  assert (Hnet : Url.split_netloc (String c0 rest) = Ok ("", String c0 rest)).
  { unfold Url.split_netloc. destruct rest; [reflexivity|].
    now rewrite Hslash. }
  rewrite Hnet. cbv beta iota.
  unfold Url.split_once.
  rewrite (break_none _ _ (Hnone 35 ltac:(tauto))). cbv beta iota.
  rewrite (break_none _ _ (Hnone 63 ltac:(tauto))). cbv beta iota.
  rewrite (Hnone 59 ltac:(tauto)), andb_false_r. reflexivity.
Qed.

(** X16.  An address without a scheme that starts with a digit and holds
    none of [? # ;], tab, carriage return or line feed, such as
    ["10.0.0.5:5000"], has no network location for [urlparse]; it is
    stored whole, as its own path. *)
Theorem register_node_bare_address (c0 : ascii) (rest : string) (st : State) :
  Url.is_digit c0 = true ->
  Url.all_chars bare_char (String c0 rest) = true ->
  register_node (String c0 rest) st =
  (Ok tt, MkState (heap st) (next_loc st) (current_transactions st)
                  (chain st) ({[ String c0 rest ]} ∪ nodes st)).
Proof.
  intros Hdigit Hbare.
  pose proof (register_node_cases (String c0 rest) st) as H.
  rewrite (urlparse_bare c0 rest Hdigit Hbare) in H.
  exact H.
Qed.

Lemma register_node_bare_address_witness :
  register_node "10.0.0.5:5000" node0 =
  (Ok tt, MkState (heap node0) (next_loc node0) (current_transactions node0)
                  (chain node0) ({[ "10.0.0.5:5000" ]} ∪ nodes node0)).
Proof.
  apply (register_node_bare_address "1" "0.0.0.5:5000" node0); reflexivity.
Defined.

(** ** The transfer route *)



(** ** The form of a digest *)

Lemma all_chars_app p s1 s2 :
  Url.all_chars p (s1 ++ s2) = Url.all_chars p s1 && Url.all_chars p s2.
Proof.
  induction s1 as [|c s1 IH]; [reflexivity|].
  change (Url.all_chars p (String c (s1 ++ s2)) =
          p c && Url.all_chars p s1 && Url.all_chars p s2).
  cbn [Url.all_chars]. now rewrite IH, andb_assoc.
Qed.

Lemma hex_digit_is_hex n :
  0 <= n < 16 -> is_hex_char (SHA256.hex_digit n) = true.
Proof.
  intros Hn. rewrite <- (Z2Nat.id n) by lia.
  assert (Hm : (Z.to_nat n < 16)%nat) by lia.
  revert Hm. generalize (Z.to_nat n). intros m Hm.
  do 16 (destruct m as [|m]; [reflexivity|]). lia.
Qed.

Lemma hex_is_hex digits x : Url.all_chars is_hex_char (SHA256.hex digits x) = true.
Proof.
  induction digits as [|k IH]; [reflexivity|].
  cbn [SHA256.hex Url.all_chars]. rewrite IH, andb_true_r.
  apply hex_digit_is_hex. change 15 with (Z.ones 4).
  rewrite Z.land_ones by lia. apply Z.mod_pos_bound. lia.
Qed.

Lemma hexdigest_is_hex msg :
  Url.all_chars is_hex_char (SHA256.hexdigest msg) = true.
Proof.
  with_strategy transparent [SHA256.hexdigest]
    (unfold SHA256.hexdigest, SHA256.digest_words).
  cbn [map String.concat]. now rewrite !all_chars_app, !hex_is_hex.
Qed.

(** X18.  A digest is 64 lower-case hexadecimal digits, whatever the
    block: in particular it is never empty, so that [add_block] given
    the digest of a block always keeps it as [previous_hash]. *)
Theorem hash_is_hex (b : block) :
  String.length (hash b) = 64%nat /\
  Url.all_chars is_hex_char (hash b) = true /\
  truthy_opt_str (Some (hash b)) = true.
Proof.
  pose proof (hexdigest_length (encode (dumps_block b))) as Hlen.
  split_conj.
  - exact Hlen.
  - apply hexdigest_is_hex.
  - unfold hash. cbn [truthy_opt_str].
    destruct (SHA256.hexdigest (encode (dumps_block b))); [discriminate|reflexivity].
Qed.

(** ** The text of a block loses nothing *)




















(** ** The consensus route *)

Lemma resolve_conflicts_replaced_valid net order st st' :
  resolve_conflicts net order st = (Ok true, st') ->
  valid_chain (chain_data st') = Ok true.
Proof.
  unfold resolve_conflicts.
  destruct (resolve_loop net order None (Z.of_nat (length (chain st))))
    as [nc|e] eqn:Hloop; [|discriminate].
  destruct nc as [[|x c]|]; cbn [truthy_opt_list]; try discriminate.
  cbn [default from_option id].
  destruct (store_chain (x :: c) (heap st) (next_loc st)) as [[bs h] l] eqn:Hs.
  intros [= <-]. unfold chain_data. cbn [chain].
  rewrite (store_chain_load _ _ _ _ _ _
             (MkState h l (current_transactions st) bs (nodes st)) Hs eq_refl).
  apply (resolve_loop_valid _ _ _ _ _ Hloop); [discriminate | reflexivity].
Qed.

(** X20.  Whenever [consensus] answers, the status is 200 and the answer
    is one of two: ["No change!"], the node being as before; or
    ["Blockchain was replaced!"] with the new chain, which is the chain
    the node now holds and one that [valid_chain] accepts. *)
Theorem consensus_answers (net : network) (order : list string) (st st' : State)
    (message : string) (new_chain : option (list block)) (status : Z) :
  Routes.consensus net order st = (Ok (message, new_chain, status), st') ->
  status = 200 /\
  ((message = "No change!" /\ new_chain = None /\ st' = st) \/
   (message = "Blockchain was replaced!" /\
    new_chain = Some (chain_data st') /\
    json_chain (Routes.full_chain st') = chain_data st' /\
    valid_chain (chain_data st') = Ok true)).
Proof.
  unfold Routes.consensus.
  destruct (resolve_conflicts net order st) as [[[|]|e] st1] eqn:Hres;
    intros [= <- <- <- <-].
  - split; [reflexivity|]. right. split_conj; try reflexivity.
    now apply (resolve_conflicts_replaced_valid net order st).
  - split; [reflexivity|]. left. split_conj; try reflexivity.
    unfold resolve_conflicts in Hres.
    destruct (resolve_loop net order None (Z.of_nat (length (chain st))))
      as [nc|e]; [|discriminate].
    destruct (truthy_opt_list nc); [|now injection Hres].
    destruct (store_chain _ _ _) as [[bs h] l]. discriminate.
Qed.

Lemma consensus_answers_witness :
  200 = 200 /\
  (("Blockchain was replaced!" = "No change!" /\
    Some [genesis0] = None /\
    snd (resolve_conflicts net_short_chain [peer_a] node_two_blocks) =
      node_two_blocks) \/
   ("Blockchain was replaced!" = "Blockchain was replaced!" /\
    Some [genesis0] =
      Some (chain_data
              (snd (resolve_conflicts net_short_chain [peer_a] node_two_blocks))) /\
    json_chain
      (Routes.full_chain
         (snd (resolve_conflicts net_short_chain [peer_a] node_two_blocks))) =
      chain_data
        (snd (resolve_conflicts net_short_chain [peer_a] node_two_blocks)) /\
    valid_chain
      (chain_data
         (snd (resolve_conflicts net_short_chain [peer_a] node_two_blocks))) =
      Ok true)).
Proof.
  apply (consensus_answers net_short_chain [peer_a] node_two_blocks).
  vm_compute. reflexivity.
Defined.
